(** * con/scripts: the two maintenance scripts under [auto/]

    A shallow embedding of [auto/find-auto-dependa.py] (the Repo Scanner)
    and [auto/reautolabel.py] (the Label Rewriter), and the properties of
    their specification.

    Both scripts are straight-line glue over an HTTP client, [git] and the
    file system.  Each call that leaves the process is modelled as an
    event: the script asks the environment, the environment answers as a
    function of everything that happened so far, and the request together
    with its answer is appended to the trace of the run.  A Python
    exception is the [Raise] outcome of the monad; nothing in the scripts
    catches one except [Client.has_file]. *)

From Stdlib Require Import ZArith String Ascii List.
From stdpp Require Import base list strings.

Set Warnings "-register-all".

Local Open Scope Z_scope.
Local Open Scope string_scope.
Local Open Scope list_scope.

(** ** Exceptions and results *)

(** The exceptions the scripts can meet.  [PrettyHTTPError] is ghreq's
    error for a response with a 4xx or 5xx status; [CalledProcessError] is
    what [subprocess.run(..., check=True)] raises on a non-zero exit;
    [TypeError] comes from item assignment on something that is not a
    dict; every other failure of a collaborator (connection errors, a
    missing token, invalid JSON, a missing file ...) is an [OtherError]. *)
Inductive Exn : Type :=
| PrettyHTTPError (status_code : Z)
| CalledProcessError (returncode : Z)
| TypeError (msg : string)
| OtherError (msg : string).

Inductive Res (A : Type) : Type :=
| Ok (a : A)
| Raise (e : Exn).
Arguments Ok {A} a.
Arguments Raise {A} e.

(** ** The trace monad *)

Section TraceMonad.
Context {Ev : Type}.

(** A computation reads the history of the run (oldest event first) and
    returns the events it adds, with its value or the exception raised. *)
Definition M (A : Type) : Type := list Ev → list Ev * Res A.

Definition ret {A} (a : A) : M A := λ _, ([], Ok a).

Definition raise {A} (e : Exn) : M A := λ _, ([], Raise e).

Definition bind {A B} (m : M A) (f : A → M B) : M B :=
  λ h, match m h with
       | (t1, Ok a) => let '(t2, r) := f a (h ++ t1) in (t1 ++ t2, r)
       | (t1, Raise e) => (t1, Raise e)
       end.

(** A value or exception computed without leaving the process. *)
Definition lift {A} (r : Res A) : M A := λ _, ([], r).

(** [try: body / except Exception as e: handler(e) / else: orelse(x)].
    The handler does not cover [orelse]. *)
Definition try_except_else {A B} (body : M A) (handler : Exn → M B)
    (orelse : A → M B) : M B :=
  λ h, match body h with
       | (t1, Ok a) => let '(t2, r) := orelse a (h ++ t1) in (t1 ++ t2, r)
       | (t1, Raise e) => let '(t2, r) := handler e (h ++ t1) in (t1 ++ t2, r)
       end.

(** [for x in xs: body(x)] over a list. *)
Fixpoint for_each {A} (xs : list A) (body : A → M unit) : M unit :=
  match xs with
  | [] => ret tt
  | x :: xs' => bind (body x) (λ _, for_each xs' body)
  end.
End TraceMonad.
Arguments M : clear implicits.

(** [let* x := m in k] runs [m], names its value [x] and goes on with [k];
    [m;; k] drops the value. *)
Declare Scope trace_scope.
Delimit Scope trace_scope with trace.
Notation "'let*' x ':=' m 'in' k" := (bind m (fun x => k))
  (at level 10, x pattern, m at level 100, k at level 200, only parsing)
  : trace_scope.
Notation "m ;; k" := (bind m (fun _ => k))
  (at level 100, k at level 200, only parsing, right associativity)
  : trace_scope.
Local Open Scope trace_scope.

(** A run stops at its failures, for a reading [fails] of the events that
    are failed calls: such an event is the last of the trace, and its
    exception is the outcome of the run. *)
Definition stops_at_failure {Ev A} (fails : Ev → option Exn)
    (run : list Ev * Res A) : Prop :=
  ∀ t1 ev t2 e,
    run.1 = t1 ++ ev :: t2 → fails ev = Some e → t2 = [] ∧ run.2 = Raise e.

(** ** JSON values and Python's dict operations on them *)

(** A JSON value as [json.loads] returns it.  An object keeps its members
    in insertion order, as a Python dict does. *)
Inductive Json : Type :=
| JNull
| JBool (b : bool)
| JNum (literal : string)
| JStr (s : string)
| JArr (items : list Json)
| JObj (members : list (string * Json)).

(** [d.get(k)] on the members of a dict. *)
Fixpoint dict_get (k : string) (d : list (string * Json)) : option Json :=
  match d with
  | [] => None
  | (k', v) :: d' => if String.eqb k' k then Some v else dict_get k d'
  end.

(** [d[k] = v]: an existing key keeps its place and gets the new value, a
    new key goes to the end. *)
Fixpoint dict_set (k : string) (v : Json) (d : list (string * Json))
    : list (string * Json) :=
  match d with
  | [] => [(k, v)]
  | (k', v') :: d' =>
      if String.eqb k' k then (k', v) :: d' else (k', v') :: dict_set k v d'
  end.

(** [obj[k] = v] on an arbitrary JSON value: only a dict takes a string
    key; a list, a string, a number, a boolean and [None] raise
    [TypeError]. *)
Definition setitem (obj : Json) (k : string) (v : Json) : Res Json :=
  match obj with
  | JObj d => Ok (JObj (dict_set k v d))
  | _ => Raise (TypeError "object does not support item assignment")
  end.

Definition newline : string := String (ascii_of_nat 10) EmptyString.
Definition dquote : string := String (ascii_of_nat 34) EmptyString.

(** A compact [json.dumps], without the indentation: the stand-in for
    [json.dumps(_, indent=4)] in the example environments. *)
Fixpoint compact_dumps (j : Json) : string :=
  match j with
  | JNull => "null"
  | JBool b => if b then "true" else "false"
  | JNum literal => literal
  | JStr s => dquote +:+ s +:+ dquote
  | JArr items =>
      "[" +:+ (fix go (xs : list Json) : string :=
                 match xs with
                 | [] => ""
                 | x :: xs' =>
                     compact_dumps x +:+
                     match xs' with [] => "" | _ => ", " +:+ go xs' end
                 end) items +:+ "]"
  | JObj members =>
      "{" +:+ (fix go (kvs : list (string * Json)) : string :=
                 match kvs with
                 | [] => ""
                 | (k, v) :: kvs' =>
                     dquote +:+ k +:+ dquote +:+ ": " +:+ compact_dumps v +:+
                     match kvs' with [] => "" | _ => ", " +:+ go kvs' end
                 end) members +:+ "}"
  end.

(** ** The Repo Scanner: [auto/find-auto-dependa.py] *)

Module Scanner.

(** A repository object of a listing; the script reads these four keys. *)
Record Repo : Type := {
  full_name : string;
  url : string;
  archived : bool;
  fork : bool;
}.

(** What the run exchanges with the outside, with the answer it got.
    [EPaginate] is the call of [client.paginate]: the iterator it returns
    yields [items] and then either stops or raises [err] while fetching a
    further page. *)
Inductive Event : Type :=
| EGhToken (res : Res string)
| EPaginate (path : string) (items : list Repo) (err : option Exn)
| EHead (url : string) (res : Res unit)
| EPrint (line : string).

(** The environment: the answer to each request, given the history. *)
Record World : Type := {
  ghtoken : list Event → Res string;
  paginate : list Event → string → list Repo * option Exn;
  request_head : list Event → string → Res unit;
}.

Definition OWNERS : list string :=
  ["con"; "dandi"; "datalad"; "duecredit"; "ReproNim"].

Section WithWorld.
Context (w : World).

Definition get_ghtoken : M Event string :=
  λ h, let r := ghtoken w h in ([EGhToken r], r).

(** [self.paginate(path)]. *)
Definition client_paginate (path : string)
    : M Event (list Repo * option Exn) :=
  λ h, let it := paginate w h path in ([EPaginate path it.1 it.2], Ok it).

(** [self.request("HEAD", url, raw=True)]. *)
Definition client_request_HEAD (url : string) : M Event unit :=
  λ h, let r := request_head w h url in ([EHead url r], r).

Definition print (line : string) : M Event unit :=
  λ _, ([EPrint line], Ok tt).

(** [for x in it: body(x)] over the iterator of a listing: the items in
    order, then the exception of the page that failed, if any. *)
Definition for_iter (it : list Repo * option Exn) (body : Repo → M Event unit)
    : M Event unit :=
  for_each it.1 body;;
  match it.2 with
  | Some e => raise e
  | None => ret tt
  end.

Definition get_repos_for_owner (owner : string)
    : M Event (list Repo * option Exn) :=
  client_paginate ("/users/" +:+ owner +:+ "/repos").

Definition has_file (repo_url path : string) : M Event bool :=
  try_except_else
    (client_request_HEAD (repo_url +:+ "/contents/" +:+ path))
    (λ e, match e with
          | PrettyHTTPError status_code =>
              if Z.eqb status_code 404 then ret false else raise e
          | _ => raise e
          end)
    (λ _, ret true).

(** The body of the inner loop, for one repository object [r]. *)
Definition scan_repo (r : Repo) : M Event unit :=
  if archived r || fork r then ret tt
  else
    let* has_autorc := has_file (url r) ".autorc" in
    let* both := (if has_autorc
                  then has_file (url r) ".github/dependabot.yml"
                  else ret false) in
    if both then print (full_name r) else ret tt.

(** The body of the outer loop, for one owner. *)
Definition scan_owner (owner : string) : M Event unit :=
  let* it := get_repos_for_owner owner in
  for_iter it scan_repo.

Definition main : M Event unit :=
  get_ghtoken;;
  for_each OWNERS scan_owner.

End WithWorld.

(** The lines written to standard output, in order. *)
Definition stdout (t : list Event) : list string :=
  omap (λ ev, match ev with EPrint line => Some line | _ => None end) t.

(** The HEAD requests issued, in order. *)
Definition head_urls (t : list Event) : list string :=
  omap (λ ev, match ev with EHead u _ => Some u | _ => None end) t.

(** The listings obtained, in order: the path asked and the items. *)
Definition listings (t : list Event) : list (string * list Repo) :=
  omap (λ ev, match ev with
              | EPaginate p items _ => Some (p, items)
              | _ => None
              end) t.

(** The names of the repositories of the listings, listing after
    listing. *)
Definition listed_names (ls : list (string * list Repo)) : list string :=
  flat_map (λ l, map full_name l.2) ls.

(** *** An example environment

    Every HEAD request is answered 404. *)
Definition bare_world : World := {|
  ghtoken := λ _, Ok "token";
  paginate := λ _ _, ([], None);
  request_head := λ _ _, Raise (PrettyHTTPError 404);
|}.

Definition tinuous : Repo := {|
  full_name := "con/tinuous";
  url := "https://api.github.com/repos/con/tinuous";
  archived := false;
  fork := false;
|}.

(** *** Readings of a trace used by the properties of the whole run *)

(** The HEAD requests issued, in order, each with its answer. *)
Definition heads (t : list Event) : list (string * Res unit) :=
  omap (λ ev, match ev with EHead u r => Some (u, r) | _ => None end) t.

(** The exception a failed call ends the scan with: a token that cannot
    be had, and a HEAD request that raised anything but a 404. *)
Definition fatal (ev : Event) : option Exn :=
  match ev with
  | EGhToken (Raise e) => Some e
  | EHead _ (Raise (PrettyHTTPError status_code)) =>
      if Z.eqb status_code 404 then None
      else Some (PrettyHTTPError status_code)
  | EHead _ (Raise e) => Some e
  | _ => None
  end.

(** The exceptions with which listings broke off, in order. *)
Definition listing_errors (t : list Event) : list Exn :=
  omap (λ ev, match ev with EPaginate _ _ err => err | _ => None end) t.

(** For a server that answers a HEAD request by its URL alone: the file
    is there. *)
Definition found (answer : string → Res unit) (u : string) : bool :=
  match answer u with
  | Ok _ => true
  | Raise _ => false
  end.

(** The repositories the docstring asks for: not archived, not a fork,
    with both files. *)
Definition wanted (answer : string → Res unit) (r : Repo) : bool :=
  negb (archived r) && negb (fork r)
  && found answer (url r +:+ "/contents/.autorc")
  && found answer (url r +:+ "/contents/.github/dependabot.yml").

(** *** A second example environment

    [con] has three repositories: [con/tinuous] with both files, the
    archived [con/old] and [con/solo] with [.autorc] only; the other
    owners have none. *)
Definition con_old : Repo := {|
  full_name := "con/old";
  url := "https://api.github.com/repos/con/old";
  archived := true;
  fork := false;
|}.

Definition con_solo : Repo := {|
  full_name := "con/solo";
  url := "https://api.github.com/repos/con/solo";
  archived := false;
  fork := false;
|}.

Definition con_listing (path : string) : list Repo * option Exn :=
  if String.eqb path "/users/con/repos"
  then ([con_old; tinuous; con_solo], None)
  else ([], None).

Definition con_answer (u : string) : Res unit :=
  if String.eqb u "https://api.github.com/repos/con/tinuous/contents/.autorc"
     || String.eqb u
          "https://api.github.com/repos/con/tinuous/contents/.github/dependabot.yml"
     || String.eqb u "https://api.github.com/repos/con/solo/contents/.autorc"
  then Ok tt
  else Raise (PrettyHTTPError 404).

Definition con_world : World := {|
  ghtoken := λ _, Ok "token";
  paginate := λ _, con_listing;
  request_head := λ _, con_answer;
|}.

(** The same listings, on a server that answers every HEAD request with
    a 500. *)
Definition broken_world : World := {|
  ghtoken := λ _, Ok "token";
  paginate := λ _, con_listing;
  request_head := λ _ _, Raise (PrettyHTTPError 500);
|}.

(** *** Where the requests and the output of a run come from *)

(** [r] is in a listing obtained in [t] and is neither archived nor a
    fork. *)
Definition live_in (t : list Event) (r : Repo) : Prop :=
  ∃ p items,
    In (p, items) (listings t) ∧ In r items ∧
    archived r = false ∧ fork r = false.

(** Every HEAD request of [t] is one of the two existence checks of such
    a repository, and every line printed is the name of one for which both
    checks were answered without an error. *)
Definition checked_scan (t : list Event) : Prop :=
  (∀ u ans, In (u, ans) (heads t) →
     ∃ r, live_in t r ∧
          (u = url r +:+ "/contents/.autorc" ∨
           u = url r +:+ "/contents/.github/dependabot.yml")) ∧
  (∀ line, In line (stdout t) →
     ∃ r, live_in t r ∧ line = full_name r ∧
          In (url r +:+ "/contents/.autorc", Ok tt) (heads t) ∧
          In (url r +:+ "/contents/.github/dependabot.yml", Ok tt) (heads t)).

(** *** How a scan can end *)

(** The exception a run ends with is that of a failed call of its trace
    or that of a listing that broke off. *)
Definition raise_explained {A} (run : list Event * Res A) : Prop :=
  ∀ e, run.2 = Raise e →
    (∃ ev, In ev run.1 ∧ fatal ev = Some e) ∨ In e (listing_errors run.1).

(** A listing that broke off ends the run: a run that ends normally has
    none, and without a failed call the run ends with the exception of
    the listing. *)
Definition listing_break_ends {A} (run : list Event * Res A) : Prop :=
  (∀ a, run.2 = Ok a → listing_errors run.1 = []) ∧
  (∀ e, In e (listing_errors run.1) →
     (∀ ev, In ev run.1 → fatal ev = None) → run.2 = Raise e).

(** The [con] listing breaks off after its three repositories. *)
Definition broken_listing_world : World := {|
  ghtoken := λ _, Ok "token";
  paginate := λ _ path, ((con_listing path).1, Some (PrettyHTTPError 502));
  request_head := λ _, con_answer;
|}.

(** What the scan does in [broken_world] before the HEAD request that
    fails, and that request. *)
Definition broken_before : list Event :=
  [ EGhToken (Ok "token");
    EPaginate "/users/con/repos" [con_old; tinuous; con_solo] None ].

Definition broken_event : Event :=
  EHead "https://api.github.com/repos/con/tinuous/contents/.autorc"
        (Raise (PrettyHTTPError 500)).

(** *** The output the specification asks for

    A record qualifies, when it is looked at after the history [h]: it is
    not archived, not a fork, the [.autorc] check made then is answered
    with success, and so is the [.github/dependabot.yml] check made right
    after it. *)
Definition qualifies_at (w : World) (h : list Event) (r : Repo) : bool :=
  negb (archived r) && negb (fork r) &&
  let autorc := url r +:+ "/contents/.autorc" in
  let dependabot := url r +:+ "/contents/.github/dependabot.yml" in
  match request_head w h autorc with
  | Ok _ =>
      match request_head w (h ++ [EHead autorc (request_head w h autorc)])
                         dependabot with
      | Ok _ => true
      | Raise _ => false
      end
  | Raise _ => false
  end.

(** The lines for one listing, as the specification words it: the names
    of the qualifying records, in the order of the listing.  Each record
    is looked at after everything the run did for the records before
    it. *)
Fixpoint lines_of_listing (w : World) (h : list Event) (items : list Repo)
    : list string :=
  match items with
  | [] => []
  | r :: items' =>
      (if qualifies_at w h r then [full_name r] else [])
      ++ lines_of_listing w (h ++ (scan_repo w r h).1) items'
  end.

(** The lines for a list of owners, as the specification words it: owner
    after owner, the lines of the listing of each. *)
Fixpoint lines_of_owners (w : World) (h : list Event) (owners : list string)
    : list string :=
  match owners with
  | [] => []
  | owner :: owners' =>
      let path := "/users/" +:+ owner +:+ "/repos" in
      let it := paginate w h path in
      lines_of_listing w (h ++ [EPaginate path it.1 it.2]) it.1
      ++ lines_of_owners w (h ++ (scan_owner w owner h).1) owners'
  end.

End Scanner.

(** ** The Label Rewriter: [auto/reautolabel.py] *)

Module Rewriter.

Definition Path : Type := string.

(** ghrepo's [GHRepo]: an owner and a name, written [owner/name]. *)
Record GHRepo : Type := {
  owner : string;
  name : string;
}.

(** [str(repo)]. *)
Definition GHRepo_str (repo : GHRepo) : string :=
  owner repo +:+ "/" +:+ name repo.

(** The value of the ["parent"] key of a fork's metadata. *)
Record Parent : Type := {
  full_name : string;
}.

(** The repository object [client.get] returns, with the keys the script
    reads: ["default_branch"], ["parent"] (absent or null: [None]) and
    ["owner"]["login"]. *)
Record RepoData : Type := {
  default_branch : string;
  parent : option Parent;
  owner_login : string;
}.

(** The pull-request object [client.post] returns. *)
Record PullRequest : Type := {
  pr_url : string;
}.

(** What the run exchanges with the outside, with the answer it got.
    [ERun] carries the exit status of the subprocess. *)
Inductive Event : Type :=
| ELog (fmt : string) (args : list string)
| EGhToken (res : Res string)
| ELocalRepo (dirpath : Path) (res : Res GHRepo)
| EGet (path : string) (res : Res RepoData)
| EPatch (path : string) (json : Json) (res : Res unit)
| EPost (path : string) (json : Json) (res : Res PullRequest)
| ERun (argv : list string) (cwd : Path) (res : Res Z)
| EReadText (file : Path) (res : Res string)
| EWriteText (file : Path) (content : string) (res : Res unit).

(** The environment.  The first five fields are the pure library
    functions the script calls: [repr] of a string, [Path.__truediv__],
    [json.loads], [json.dumps(_, indent=4)] and [GHRepo.parse].  [cwd] is
    [Path.cwd()].  The others answer a request, given the history. *)
Record World : Type := {
  py_repr : string → string;
  joinpath : Path → string → Path;
  json_loads : string → Res Json;
  json_dumps : Json → string;
  GHRepo_parse : string → Res GHRepo;
  cwd : Path;
  ghtoken : list Event → Res string;
  local_repo : list Event → Path → Res GHRepo;
  http_get : list Event → string → Res RepoData;
  http_patch : list Event → string → Json → Res unit;
  http_post : list Event → string → Json → Res PullRequest;
  run : list Event → list string → Path → Res Z;
  file_read : list Event → Path → Res string;
  file_write : list Event → Path → string → Res unit;
}.

(** (name, release type) *)
Definition LABELS : list (string * string) :=
  [ ("major", "major");
    ("minor", "minor");
    ("patch", "patch");
    ("dependencies", "none");
    ("documentation", "none");
    ("internal", "none");
    ("performance", "none");
    ("tests", "none") ].

Definition PR_BRANCH : string := "auto-prefix-labels".

Section WithWorld.
Context (w : World).

Definition log_info (fmt : string) (args : list string) : M Event unit :=
  λ _, ([ELog fmt args], Ok tt).

Definition get_ghtoken : M Event string :=
  λ h, let r := ghtoken w h in ([EGhToken r], r).

Definition get_local_repo (d : Path) : M Event GHRepo :=
  λ h, let r := local_repo w h d in ([ELocalRepo d r], r).

Definition client_get (path : string) : M Event RepoData :=
  λ h, let r := http_get w h path in ([EGet path r], r).

Definition client_patch (path : string) (json : Json) : M Event unit :=
  λ h, let r := http_patch w h path json in ([EPatch path json r], r).

Definition client_post (path : string) (json : Json) : M Event PullRequest :=
  λ h, let r := http_post w h path json in ([EPost path json r], r).

(** [subprocess.run(argv, check=True, cwd=cwd)]: a non-zero exit status
    raises [CalledProcessError]. *)
Definition subprocess_run_check (argv : list string) (cwd : Path)
    : M Event unit :=
  λ h, let r := run w h argv cwd in
       ([ERun argv cwd r],
        match r with
        | Ok returncode =>
            if Z.eqb returncode 0 then Ok tt
            else Raise (CalledProcessError returncode)
        | Raise e => Raise e
        end).

Definition read_text (file : Path) : M Event string :=
  λ h, let r := file_read w h file in ([EReadText file r], r).

Definition write_text (file : Path) (content : string) : M Event unit :=
  λ h, let r := file_write w h file content in
       ([EWriteText file content r], r).

(** The list assigned to [config["labels"]]. *)
Definition autorc_labels : Json :=
  JArr (map (λ '(name, rt), JObj [("name", JStr name); ("releaseType", JStr rt)])
            LABELS).

(** The ["head"] of the pull request. *)
Definition pr_head (head_owner : option string) : string :=
  match head_owner with
  | Some head_owner => head_owner +:+ ":" +:+ PR_BRANCH
  | None => PR_BRANCH
  end.

(** Lines 74-80: the repository to work on and the owner of the head of
    the pull request.  For a fork ([repo_data.get("parent")] is not
    [None]) these are the parent and the fork's owner. *)
Definition resolve_target (repo_data : RepoData) (repo : GHRepo)
    : M Event (option string * GHRepo) :=
  match parent repo_data with
  | Some parent =>
      let head_owner := Some (owner_login repo_data) in
      let* repo := lift (GHRepo_parse w (full_name parent)) in
      log_info "GitHub repository is a fork; operating on parent %s"
               [GHRepo_str repo];;
      ret (head_owner, repo)
  | None => ret (None, repo)
  end.

(** Lines 81-87: the renames. *)
Definition rename_labels (prefix : string) (repo : GHRepo) : M Event unit :=
  log_info "Renaming labels" [];;
  for_each LABELS (λ '(label, _),
    let new_label := prefix +:+ label in
    log_info "%r -> %r" [label; new_label];;
    client_patch ("/repos/" +:+ GHRepo_str repo +:+ "/labels/" +:+ label)
                 (JObj [("new_name", JStr new_label)])).

(** Lines 88-105: the branch, the edit of [.autorc], the commit and the
    push. *)
Definition update_autorc (title defbranch : string) (d : Path)
    : M Event unit :=
  log_info "Creating PR to update .autorc" [];;
  subprocess_run_check ["git"; "checkout"; "-b"; PR_BRANCH; defbranch] d;;
  let autorc := joinpath w d ".autorc" in
  let* text := read_text autorc in
  let* config := lift (json_loads w text) in
  let* config := lift (setitem config "labels" autorc_labels) in
  write_text autorc (json_dumps w config +:+ newline);;
  subprocess_run_check ["git"; "commit"; "-m"; title; ".autorc"] d;;
  subprocess_run_check ["git"; "push"; "--set-upstream"; "origin"; PR_BRANCH] d.

(** Lines 106-120: the pull request. *)
Definition create_pr (title body defbranch : string)
    (head_owner : option string) (repo : GHRepo) : M Event unit :=
  let* pr := client_post ("/repos/" +:+ GHRepo_str repo +:+ "/pulls")
               (JObj [ ("title", JStr title);
                       ("head", JStr (pr_head head_owner));
                       ("base", JStr defbranch);
                       ("body", JStr body);
                       ("maintainer_can_modify", JBool true) ]) in
  log_info "PR created: %s" [pr_url pr].

(** The body of the loop of [main], lines 69-120, for one directory [d]. *)
Definition process_dir (prefix title body : string) (d : Path)
    : M Event unit :=
  log_info "Operating on %s ..." [d];;
  let* repo := get_local_repo d in
  log_info "'origin' remote points to GitHub repository %s" [GHRepo_str repo];;
  let* repo_data := client_get ("/repo/" +:+ GHRepo_str repo) in
  let defbranch := default_branch repo_data in
  let* (head_owner, repo) := resolve_target repo_data repo in
  rename_labels prefix repo;;
  update_autorc title defbranch d;;
  create_pr title body defbranch head_owner repo.

(** The title and the body of the pull request, as [main] builds them. *)
Definition pr_title (prefix : string) : string :=
  "Prefix auto labels with " +:+ py_repr w prefix.

Definition pr_body (prefix : string) : string :=
  "This PR modifies the `auto` configuration so that the label names"
  +:+ " (other than " +:+ dquote +:+ "release" +:+ dquote
  +:+ ") will be prefixed with " +:+ py_repr w prefix +:+ ".  This is"
  +:+ " necessary to keep Dependabot from applying `auto` labels to its PRs,"
  +:+ " causing undesirable version bumps."
  +:+ newline +:+ newline
  +:+ "See <https://github.com/datalad/datalad-installer/issues/175> for more"
  +:+ " information.".

(** [main], from the parsed arguments: [--prefix] (argparse supplies
    ["semver-"] when it is not given) and the positional [dirpath]. *)
Definition main (prefix : string) (dirpath : list Path) : M Event unit :=
  let dirs := match dirpath with [] => [cwd w] | _ => dirpath end in
  let title := pr_title prefix in
  let body := pr_body prefix in
  get_ghtoken;;
  for_each dirs (process_dir prefix title body).

End WithWorld.

(** The exception an event stands for, if the call it records failed. *)
Definition failed (ev : Event) : option Exn :=
  match ev with
  | ELog _ _ => None
  | EGhToken (Raise e) | ELocalRepo _ (Raise e) | EGet _ (Raise e)
  | EPatch _ _ (Raise e) | EPost _ _ (Raise e) | ERun _ _ (Raise e)
  | EReadText _ (Raise e) | EWriteText _ _ (Raise e) => Some e
  | ERun _ _ (Ok returncode) =>
      if Z.eqb returncode 0 then None
      else Some (CalledProcessError returncode)
  | _ => None
  end.

(** A run is fail-stop when a failed call is the last thing in its trace
    and its exception is the outcome of the run. *)
Definition fail_stop {A} (run : list Event * Res A) : Prop :=
  ∀ t1 ev t2 e,
    run.1 = t1 ++ ev :: t2 → failed ev = Some e → t2 = [] ∧ run.2 = Raise e.

(** The label renames requested, in order: path and JSON body. *)
Definition patches (t : list Event) : list (string * Json) :=
  omap (λ ev, match ev with EPatch p j _ => Some (p, j) | _ => None end) t.

(** The pull requests submitted, in order: path and JSON body. *)
Definition posts (t : list Event) : list (string * Json) :=
  omap (λ ev, match ev with EPost p j _ => Some (p, j) | _ => None end) t.

(** The metadata fetches, in order: the path asked and the answer. *)
Definition gets (t : list Event) : list (string * Res RepoData) :=
  omap (λ ev, match ev with EGet p r => Some (p, r) | _ => None end) t.

(** The resolutions of a local clone, in order: directory and answer. *)
Definition local_repos (t : list Event) : list (Path * Res GHRepo) :=
  omap (λ ev, match ev with ELocalRepo d r => Some (d, r) | _ => None end) t.

(** The files read, in order: path and answer. *)
Definition reads (t : list Event) : list (Path * Res string) :=
  omap (λ ev, match ev with EReadText f r => Some (f, r) | _ => None end) t.

(** The files written, in order: path and content. *)
Definition writes (t : list Event) : list (Path * string) :=
  omap (λ ev, match ev with EWriteText f c _ => Some (f, c) | _ => None end) t.

(** The [git] invocations, in order: the argument vector. *)
Definition runs (t : list Event) : list (list string) :=
  omap (λ ev, match ev with ERun argv _ _ => Some argv | _ => None end) t.

(** [obj.get(k)] on a JSON value that is a dict. *)
Definition json_get (k : string) (obj : Json) : option Json :=
  match obj with
  | JObj d => dict_get k d
  | _ => None
  end.

(** The rename request for [label] on the repository [target]. *)
Definition rename_request (prefix target : string) (label : string)
    : string * Json :=
  ("/repos/" +:+ target +:+ "/labels/" +:+ label,
   JObj [("new_name", JStr (prefix +:+ label))]).

(** The pull-request submission on the repository [target]. *)
Definition pr_request (title body defbranch : string)
    (head_owner : option string) (target : string) : string * Json :=
  ("/repos/" +:+ target +:+ "/pulls",
   JObj [ ("title", JStr title);
          ("head", JStr (pr_head head_owner));
          ("base", JStr defbranch);
          ("body", JStr body);
          ("maintainer_can_modify", JBool true) ]).

(** The repository the renames and the pull request go to, as the
    specification words it: the parent's full name for a fork, the
    repository itself otherwise.  Compared with [resolve_target] below. *)
Definition spec_target (rd : RepoData) (repo : GHRepo) : string :=
  match parent rd with
  | Some P => full_name P
  | None => GHRepo_str repo
  end.

(** The head of the pull request, as the specification words it: the
    owner login followed by [":auto-prefix-labels"] for a fork, the bare
    branch name otherwise.  Compared with [pr_head] below. *)
Definition spec_head (rd : RepoData) : string :=
  match parent rd with
  | Some _ => owner_login rd +:+ ":auto-prefix-labels"
  | None => "auto-prefix-labels"
  end.

(** *** Example environments

    A clone of [alice/base], a fork of [acme/base], in the directory
    [clone]; its [.autorc] holds two keys.  Every request succeeds. *)
Definition alice_base : GHRepo := {| owner := "alice"; name := "base" |}.

Definition fork_data : RepoData := {|
  default_branch := "main";
  parent := Some {| full_name := "acme/base" |};
  owner_login := "alice";
|}.

Definition fork_config : Json :=
  JObj [ ("baseBranch", JStr "main");
         ("plugins", JArr [JStr "git-tag"]) ].

Definition fork_world : World := {|
  py_repr := λ s, "'" +:+ s +:+ "'";
  joinpath := λ d f, d +:+ "/" +:+ f;
  json_loads := λ _, Ok fork_config;
  json_dumps := compact_dumps;
  GHRepo_parse := λ s,
    if String.eqb s "acme/base"
    then Ok {| owner := "acme"; name := "base" |}
    else Raise (OtherError "invalid repository spec");
  cwd := ".";
  ghtoken := λ _, Ok "token";
  local_repo := λ _ _, Ok alice_base;
  http_get := λ _ _, Ok fork_data;
  http_patch := λ _ _ _, Ok tt;
  http_post := λ _ _ _,
    Ok {| pr_url := "https://api.github.com/repos/acme/base/pulls/1" |};
  run := λ _ _ _, Ok 0;
  file_read := λ _ _, Ok "{}";
  file_write := λ _ _ _, Ok tt;
|}.

(** The run of the loop body on [clone] with the prefix ["x-"]. *)
Definition fork_trace : list Event := Eval vm_compute in
  (process_dir fork_world "x-" (pr_title fork_world "x-")
               (pr_body fork_world "x-") "clone" []).1.

(** The configuration that run writes. *)
Definition fork_config_written : Json :=
  JObj [ ("baseBranch", JStr "main");
         ("plugins", JArr [JStr "git-tag"]);
         ("labels", autorc_labels) ].

(** The same environment, but [git] exits with status 1. *)
Definition gitfail_world : World := {|
  py_repr := py_repr fork_world;
  joinpath := joinpath fork_world;
  json_loads := json_loads fork_world;
  json_dumps := json_dumps fork_world;
  GHRepo_parse := GHRepo_parse fork_world;
  cwd := cwd fork_world;
  ghtoken := ghtoken fork_world;
  local_repo := local_repo fork_world;
  http_get := http_get fork_world;
  http_patch := http_patch fork_world;
  http_post := http_post fork_world;
  run := λ _ _ _, Ok 1;
  file_read := file_read fork_world;
  file_write := file_write fork_world;
|}.

Definition gitfail_event : Event :=
  ERun ["git"; "checkout"; "-b"; "auto-prefix-labels"; "main"] "clone" (Ok 1).

(** What [main] does on the directories [clone] and [other] before the
    failed [git] call. *)
Definition gitfail_before : list Event := Eval vm_compute in
  removelast (main gitfail_world "x-" ["clone"; "other"] []).1.

(** *** The steps of a run *)

(** The kinds of call that leave the process; a log line is none. *)
Inductive Step : Type :=
| SToken
| SResolve
| SFetch
| SRename
| SGit
| SRead
| SWrite
| SPullRequest.

Definition step_of (ev : Event) : option Step :=
  match ev with
  | ELog _ _ => None
  | EGhToken _ => Some SToken
  | ELocalRepo _ _ => Some SResolve
  | EGet _ _ => Some SFetch
  | EPatch _ _ _ => Some SRename
  | EPost _ _ _ => Some SPullRequest
  | ERun _ _ _ => Some SGit
  | EReadText _ _ => Some SRead
  | EWriteText _ _ _ => Some SWrite
  end.

(** The calls of a trace by kind, in order. *)
Definition steps (t : list Event) : list Step := omap step_of t.

(** What is asked in a call, without the answer. *)
Inductive Request : Type :=
| RGhToken
| RLocalRepo (dirpath : Path)
| RGet (path : string)
| RPatch (path : string) (json : Json)
| RPost (path : string) (json : Json)
| RRun (argv : list string) (cwd : Path)
| RReadText (file : Path)
| RWriteText (file : Path) (content : string).

Definition request_of (ev : Event) : option Request :=
  match ev with
  | ELog _ _ => None
  | EGhToken _ => Some RGhToken
  | ELocalRepo d _ => Some (RLocalRepo d)
  | EGet path _ => Some (RGet path)
  | EPatch path json _ => Some (RPatch path json)
  | EPost path json _ => Some (RPost path json)
  | ERun argv cwd _ => Some (RRun argv cwd)
  | EReadText file _ => Some (RReadText file)
  | EWriteText file content _ => Some (RWriteText file content)
  end.

(** The calls of a trace, in order. *)
Definition requests (t : list Event) : list Request := omap request_of t.

(** A trace of log lines and rename requests only. *)
Definition only_renames (t : list Event) : Prop :=
  Forall (λ ev, match ev with
                | ELog _ _ | EPatch _ _ _ => True
                | _ => False
                end) t.

(** *** What a run touches *)

(** The event stays within the directories [dirs]: a clone resolved is one
    of them, a [git] call is one of the three of the script and runs in
    one of them, and a file read or written is the [.autorc] of one of
    them. *)
Definition local_footprint (w : World) (dirs : list Path) (ev : Event) : Prop :=
  match ev with
  | ELocalRepo d _ => In d dirs
  | ERun argv cwd _ =>
      In cwd dirs ∧
      ((∃ branch,
          argv = ["git"; "checkout"; "-b"; "auto-prefix-labels"; branch]) ∨
       (∃ message, argv = ["git"; "commit"; "-m"; message; ".autorc"]) ∨
       argv = ["git"; "push"; "--set-upstream"; "origin"; "auto-prefix-labels"])
  | EReadText f _ => ∃ d, In d dirs ∧ f = joinpath w d ".autorc"
  | EWriteText f _ _ => ∃ d, In d dirs ∧ f = joinpath w d ".autorc"
  | _ => True
  end.

(** The event carries the announcement of the change: a commit has the
    title as its message, and a pull request has the title, the body and
    [maintainer_can_modify]. *)
Definition announced (title body : string) (ev : Event) : Prop :=
  match ev with
  | ERun ("git" :: "commit" :: args) _ _ => args = ["-m"; title; ".autorc"]
  | EPost _ json _ =>
      json_get "title" json = Some (JStr title) ∧
      json_get "body" json = Some (JStr body) ∧
      json_get "maintainer_can_modify" json = Some (JBool true)
  | _ => True
  end.

(** *** Further example environments

    The environment of the fork, but [.autorc] is not JSON. *)
Definition badjson_world : World := {|
  py_repr := py_repr fork_world;
  joinpath := joinpath fork_world;
  json_loads := λ _, Raise (OtherError "JSONDecodeError");
  json_dumps := json_dumps fork_world;
  GHRepo_parse := GHRepo_parse fork_world;
  cwd := cwd fork_world;
  ghtoken := ghtoken fork_world;
  local_repo := local_repo fork_world;
  http_get := http_get fork_world;
  http_patch := http_patch fork_world;
  http_post := http_post fork_world;
  run := run fork_world;
  file_read := file_read fork_world;
  file_write := file_write fork_world;
|}.

Definition badjson_trace : list Event := Eval vm_compute in
  (process_dir badjson_world "x-" (pr_title badjson_world "x-")
               (pr_body badjson_world "x-") "clone" []).1.

(** The [git push] and the pull request of the run on the fork. *)
Definition fork_push : Event :=
  ERun ["git"; "push"; "--set-upstream"; "origin"; "auto-prefix-labels"]
       "clone" (Ok 0).

Definition fork_post : Event :=
  EPost "/repos/acme/base/pulls"
        (JObj [ ("title", JStr (pr_title fork_world "x-"));
                ("head", JStr "alice:auto-prefix-labels");
                ("base", JStr "main");
                ("body", JStr (pr_body fork_world "x-"));
                ("maintainer_can_modify", JBool true) ])
        (Ok {| pr_url := "https://api.github.com/repos/acme/base/pulls/1" |}).

(** The environment of the fork with libraries that reject: [json.loads]
    accepts the text [{}] only, and [GHRepo.parse] the name [acme/base]
    only. *)
Definition strict_world : World := {|
  py_repr := py_repr fork_world;
  joinpath := joinpath fork_world;
  json_loads := λ text,
    if String.eqb text "{}" then Ok (JObj [])
    else Raise (OtherError "JSONDecodeError");
  json_dumps := json_dumps fork_world;
  GHRepo_parse := GHRepo_parse fork_world;
  cwd := cwd fork_world;
  ghtoken := ghtoken fork_world;
  local_repo := local_repo fork_world;
  http_get := http_get fork_world;
  http_patch := http_patch fork_world;
  http_post := http_post fork_world;
  run := run fork_world;
  file_read := file_read fork_world;
  file_write := file_write fork_world;
|}.

End Rewriter.

(** * Properties *)

(** ** Generic facts about the trace monad *)

Section TraceMonadFacts.
Context {Ev : Type}.
Implicit Types h t : list Ev.

Lemma bind_fst {A B} (m : M Ev A) (f : A → M Ev B) h :
  (bind m f h).1 =
  (m h).1 ++ match (m h).2 with
             | Ok a => (f a (h ++ (m h).1)).1
             | Raise _ => []
             end.
Proof.
  unfold bind. destruct (m h) as [t1 [a|e]]; simpl.
  - by destruct (f a (h ++ t1)).
  - by rewrite app_nil_r.
Qed.

Lemma bind_snd {A B} (m : M Ev A) (f : A → M Ev B) h :
  (bind m f h).2 =
  match (m h).2 with
  | Ok a => (f a (h ++ (m h).1)).2
  | Raise e => Raise e
  end.
Proof.
  unfold bind. destruct (m h) as [t1 [a|e]]; simpl; [|done].
  by destruct (f a (h ++ t1)).
Qed.

Lemma bind_run {A B} (m : M Ev A) (f : A → M Ev B) h t1 r1 :
  m h = (t1, r1) →
  bind m f h =
  match r1 with
  | Ok a => (t1 ++ (f a (h ++ t1)).1, (f a (h ++ t1)).2)
  | Raise e => (t1, Raise e)
  end.
Proof.
  intros Hm. unfold bind. rewrite Hm. destruct r1 as [a|e]; [|done].
  by destruct (f a (h ++ t1)).
Qed.

(** Inversion of a run of [bind m f]: either [m] raised, or [m] returned
    and the run goes on with [f]. *)
Lemma bind_inv {A B} (m : M Ev A) (f : A → M Ev B) h t r :
  bind m f h = (t, r) →
  (∃ e, m h = (t, Raise e) ∧ r = Raise e) ∨
  (∃ t1 a t2, m h = (t1, Ok a) ∧ f a (h ++ t1) = (t2, r) ∧ t = t1 ++ t2).
Proof.
  unfold bind. destruct (m h) as [t1 [a|e]].
  - destruct (f a (h ++ t1)) as [t2 r2] eqn:Hf. intros [= <- <-].
    right. by exists t1, a, t2.
  - intros [= <- <-]. left. by exists e.
Qed.

Lemma bind_assoc {A B C} (m : M Ev A) (f : A → M Ev B) (g : B → M Ev C) h :
  bind (bind m f) g h = bind m (λ a, bind (f a) g) h.
Proof.
  unfold bind. destruct (m h) as [t1 [a|e]]; [|done].
  destruct (f a (h ++ t1)) as [t2 [b|e]]; [|done].
  rewrite <-app_assoc. destruct (g b (h ++ t1 ++ t2)) as [t3 r].
  by rewrite app_assoc.
Qed.

Lemma bind_ext {A B} (m : M Ev A) (f g : A → M Ev B) h :
  (∀ a h', f a h' = g a h') → bind m f h = bind m g h.
Proof.
  intros Hfg. unfold bind. destruct (m h) as [t1 [a|e]]; [|done].
  by rewrite Hfg.
Qed.

Lemma for_each_app {A} (xs ys : list A) (body : A → M Ev unit) h :
  for_each (xs ++ ys) body h = bind (for_each xs body) (λ _, for_each ys body) h.
Proof.
  revert h. induction xs as [|x xs IH]; intros h; simpl.
  - unfold bind, ret. rewrite app_nil_r. by destruct (for_each ys body h).
  - rewrite bind_assoc. apply bind_ext. intros _ h'. apply IH.
Qed.

(** A property of every event of a run is kept by sequencing and by
    loops. *)
Lemma Forall_bind {A B} (P : Ev → Prop) (m : M Ev A) (f : A → M Ev B) h :
  Forall P (m h).1 →
  (∀ a h', Forall P (f a h').1) →
  Forall P (bind m f h).1.
Proof.
  intros Hm Hf. rewrite bind_fst. apply Forall_app. split; [done|].
  destruct (m h).2; [apply Hf|constructor].
Qed.

Lemma Forall_for_each {A} (P : Ev → Prop) (xs : list A)
    (body : A → M Ev unit) h :
  (∀ x h', Forall P (body x h').1) → Forall P (for_each xs body h).1.
Proof.
  intros Hbody. revert h. induction xs as [|x xs IH]; intros h; simpl.
  - constructor.
  - apply Forall_bind; auto.
Qed.

Lemma omap_nil_Forall {B} (g : Ev → option B) t :
  Forall (λ ev, g ev = None) t → omap g t = [].
Proof.
  induction 1 as [|ev t Hev _ IH]; simpl; [done|]. by rewrite Hev.
Qed.

(** A loop over [xs ++ x :: ys] whose body raises at [x], after the
    iterations for [xs] went through, stops there: the run ends with the
    trace of the failed iteration and its exception, and the body is not
    entered for any element of [ys]. *)
Lemma for_each_raise {A} (xs ys : list A) (x : A) (body : A → M Ev unit)
    h t1 t2 e :
  for_each xs body h = (t1, Ok tt) →
  body x (h ++ t1) = (t2, Raise e) →
  for_each (xs ++ x :: ys) body h = (t1 ++ t2, Raise e).
Proof.
  intros Hxs Hx. rewrite for_each_app. unfold bind at 1. rewrite Hxs.
  simpl. unfold bind. by rewrite Hx.
Qed.
End TraceMonadFacts.

(** ** Loops and failures in the trace monad *)

Section TraceMonadRuns.
Context {Ev : Type}.
Implicit Types h t : list Ev.

(** A property of traces that the empty trace has and that concatenation
    keeps is kept by a loop whose iterations have it. *)
Lemma for_each_closed {A} (G : list Ev → Prop) (xs : list A)
    (body : A → M Ev unit) h :
  G [] →
  (∀ t1 t2, G t1 → G t2 → G (t1 ++ t2)) →
  (∀ x h', In x xs → G (body x h').1) →
  G (for_each xs body h).1.
Proof.
  intros Hnil Happ. revert h.
  induction xs as [|x xs IH]; intros h Hbody; simpl; [done|].
  rewrite bind_fst. apply Happ; [apply Hbody; by left|].
  destruct (body x h).2; [|done].
  apply IH. intros x' h' Hx'. apply Hbody. by right.
Qed.

Lemma for_each_ok {A} (xs : list A) (body : A → M Ev unit) h :
  (∀ x h', In x xs → (body x h').2 = Ok tt) →
  (for_each xs body h).2 = Ok tt.
Proof.
  revert h. induction xs as [|x xs IH]; intros h Hbody; simpl; [done|].
  rewrite bind_snd, Hbody by (by left).
  apply IH. intros x' h' Hx'. apply Hbody. by right.
Qed.

(** A loop that ends normally went through every iteration, each ending
    normally: its trace is the concatenation of theirs. *)
Lemma for_each_ok_inv {A} (G : A → list Ev → Prop) (xs : list A)
    (body : A → M Ev unit) h :
  (∀ x h', (body x h').2 = Ok tt → G x (body x h').1) →
  (for_each xs body h).2 = Ok tt →
  ∃ ts, (for_each xs body h).1 = concat ts ∧ Forall2 G xs ts.
Proof.
  intros Hbody. revert h. induction xs as [|x xs IH]; intros h; simpl.
  { intros _. exists []. split; [done|constructor]. }
  rewrite bind_fst, bind_snd.
  destruct (body x h).2 as [[]|e] eqn:Hx; [|done].
  intros Hrest. destruct (IH _ Hrest) as (ts & -> & Hts).
  exists ((body x h).1 :: ts). split; [done|].
  constructor; [by apply Hbody|done].
Qed.


Variable fails : Ev → option Exn.

Lemma stops_nil {A} (run : list Ev * Res A) :
  run.1 = [] → stops_at_failure fails run.
Proof. intros Hnil t1 ev t2 e Ht. rewrite Hnil in Ht. by destruct t1. Qed.

Lemma stops_single {A} (run : list Ev * Res A) ev :
  run.1 = [ev] →
  (∀ e, fails ev = Some e → run.2 = Raise e) →
  stops_at_failure fails run.
Proof.
  intros Hone Hev t1 ev' t2 e Ht Hf. rewrite Hone in Ht.
  destruct t1 as [|? [|]]; simplify_eq/=. auto.
Qed.

Lemma stops_bind {A B} (m : M Ev A) (f : A → M Ev B) h :
  stops_at_failure fails (m h) →
  (∀ a h', stops_at_failure fails (f a h')) →
  stops_at_failure fails (bind m f h).
Proof.
  intros Hm Hf t1 ev t2 e. rewrite bind_fst, bind_snd.
  destruct (m h) as [u1 [a|e1]]; simpl in *.
  - intros Ht Hev. specialize (Hf a (h ++ u1)).
    destruct (f a (h ++ u1)) as [u2 r2]; simpl in *.
    apply app_eq_app in Ht as [l [[-> Hl]|[-> Hl]]].
    + destruct l as [|ev' l]; simpl in Hl.
      * apply (Hf [] ev t2 e); by simpl.
      * injection Hl as <- ->.
        destruct (Hm t1 ev l e) as [_ ?]; simpl; done.
    + by apply (Hf l ev t2 e).
  - rewrite app_nil_r. intros Ht Hev.
    by destruct (Hm t1 ev t2 e Ht Hev) as [-> [= ->]].
Qed.

Lemma stops_for_each {A} (xs : list A) (body : A → M Ev unit) h :
  (∀ x h', stops_at_failure fails (body x h')) →
  stops_at_failure fails (for_each xs body h).
Proof.
  intros Hbody. revert h. induction xs as [|x xs IH]; intros h; simpl.
  - by apply stops_nil.
  - apply stops_bind; auto.
Qed.

End TraceMonadRuns.

Lemma append_inj_l (s a b : string) : s +:+ a = s +:+ b → a = b.
Proof. induction s as [|c s IH]; simpl; [done|]. intros [= H]. auto. Qed.

(** ** The Repo Scanner *)

Module ScannerSpec.
Import Scanner.

Lemma stdout_app t1 t2 : stdout (t1 ++ t2) = stdout t1 ++ stdout t2.
Proof. apply omap_app. Qed.

Lemma listings_app t1 t2 : listings (t1 ++ t2) = listings t1 ++ listings t2.
Proof. apply omap_app. Qed.

Lemma head_urls_app t1 t2 : head_urls (t1 ++ t2) = head_urls t1 ++ head_urls t2.
Proof. apply omap_app. Qed.

(** The run of [has_file], spelled out. *)
Lemma has_file_run w repo_url path h :
  has_file w repo_url path h =
  ([EHead (repo_url +:+ "/contents/" +:+ path)
          (request_head w h (repo_url +:+ "/contents/" +:+ path))],
   match request_head w h (repo_url +:+ "/contents/" +:+ path) with
   | Ok _ => Ok true
   | Raise (PrettyHTTPError status_code) =>
       if Z.eqb status_code 404 then Ok false
       else Raise (PrettyHTTPError status_code)
   | Raise e => Raise e
   end).
Proof.
  unfold has_file, try_except_else, client_request_HEAD. simpl.
  destruct (request_head w h _) as [[]|[sc| | |]]; simpl; try done.
  by destruct (Z.eqb sc 404).
Qed.

(** [has_file] returns [False] exactly on a 404. *)
Lemma has_file_false_404 w h repo_url path :
  (has_file w repo_url path h).1 =
    [EHead (repo_url +:+ "/contents/" +:+ path)
           (request_head w h (repo_url +:+ "/contents/" +:+ path))] ∧
  ((has_file w repo_url path h).2 = Ok false →
   request_head w h (repo_url +:+ "/contents/" +:+ path) =
     Raise (PrettyHTTPError 404)).
Proof.
  rewrite has_file_run. simpl. split; [done|].
  destruct (request_head w h _) as [[]|[sc| | |]]; try done.
  destruct (Z.eqb sc 404) eqn:E; [|done].
  apply Z.eqb_eq in E. by subst.
Qed.

(** C3. The existence check [has_file] issues one HEAD request, for
    [repo_url/contents/path].  It returns [False] if and only if that
    request raises an HTTP error with status 404; it returns [True] if and
    only if the request succeeds; and any other exception of the request,
    an HTTP error with another status among them, is raised again. *)
Theorem C3_has_file w h repo_url path :
  let url := repo_url +:+ "/contents/" +:+ path in
  let answer := request_head w h url in
  let run := has_file w repo_url path h in
  run.1 = [EHead url answer] ∧
  (run.2 = Ok false ↔ answer = Raise (PrettyHTTPError 404)) ∧
  (run.2 = Ok true ↔ answer = Ok tt) ∧
  (∀ status_code, status_code ≠ 404 →
     answer = Raise (PrettyHTTPError status_code) →
     run.2 = Raise (PrettyHTTPError status_code)) ∧
  (∀ e, e ≠ PrettyHTTPError 404 → answer = Raise e → run.2 = Raise e).
Proof.
  intros url answer run. subst run. rewrite has_file_run. fold url answer.
  simpl. split; [done|]. clearbody answer.
  assert (Hother : ∀ e, e ≠ PrettyHTTPError 404 → answer = Raise e →
    match answer with
    | Ok _ => Ok true
    | Raise (PrettyHTTPError status_code) =>
        if Z.eqb status_code 404 then Ok false
        else Raise (PrettyHTTPError status_code)
    | Raise e => Raise e
    end = Raise e).
  { intros e Hne ->. destruct e as [sc| | |]; try done.
    destruct (Z.eqb sc 404) eqn:E; [|done].
    apply Z.eqb_eq in E. by subst. }
  repeat split.
  - destruct answer as [[]|[sc| | |]]; try done.
    destruct (Z.eqb sc 404) eqn:E; [|done].
    apply Z.eqb_eq in E. by subst.
  - by intros ->.
  - destruct answer as [[]|[sc| | |]]; try done.
    by destruct (Z.eqb sc 404).
  - by intros ->.
  - intros sc Hne. apply Hother. congruence.
  - done.
Qed.

(** The run of the loop body [scan_repo], spelled out. *)
Lemma scan_repo_run w r h :
  scan_repo w r h =
  if archived r || fork r then ([], Ok tt)
  else
    let a := has_file w (url r) ".autorc" h in
    match a.2 with
    | Ok true =>
        let b := has_file w (url r) ".github/dependabot.yml" (h ++ a.1) in
        match b.2 with
        | Ok true => (a.1 ++ b.1 ++ [EPrint (full_name r)], Ok tt)
        | Ok false => (a.1 ++ b.1, Ok tt)
        | Raise e => (a.1 ++ b.1, Raise e)
        end
    | Ok false => (a.1, Ok tt)
    | Raise e => (a.1, Raise e)
    end.
Proof.
  unfold scan_repo. destruct (archived r || fork r); [done|].
  unfold bind. simpl.
  destruct (has_file w (url r) ".autorc" h) as [t1 [[]|e]]; simpl; try done.
  - destruct (has_file w (url r) ".github/dependabot.yml" (h ++ t1))
      as [t2 [[]|e]]; simpl; try done.
    by rewrite !app_nil_r.
  - by rewrite !app_nil_r.
Qed.

(** C4. The loop body prints the [full_name] of a repository object if
    and only if [archived] is false, [fork] is false, the [.autorc]
    existence check returns [True] and the [.github/dependabot.yml]
    existence check (made after it) returns [True]; it prints nothing
    else.  For an object with [archived] or [fork] true the body does
    nothing at all: no existence check is issued and nothing is printed. *)
Theorem C4_scan_repo_prints w h r :
  let a := has_file w (url r) ".autorc" h in
  let b := has_file w (url r) ".github/dependabot.yml" (h ++ a.1) in
  let run := scan_repo w r h in
  let qualifies :=
    archived r = false ∧ fork r = false ∧ a.2 = Ok true ∧ b.2 = Ok true in
  (stdout run.1 = [full_name r] ↔ qualifies) ∧
  (stdout run.1 = [] ↔ ¬ qualifies) ∧
  (archived r = true ∨ fork r = true →
   run = ([], Ok tt) ∧ head_urls run.1 = [] ∧ stdout run.1 = []).
Proof.
  intros a b run qualifies. subst run qualifies b a.
  rewrite scan_repo_run. cbv zeta.
  assert (Hst : ∀ h' p, stdout (has_file w (url r) p h').1 = [])
    by (intros; by rewrite has_file_run).
  destruct (archived r), (fork r); simpl;
    try (split; [|split]; [split; [done|by intros (?&?&?)]
                          |split; [by intros _ (?&?&?)|done]
                          |done]).
  generalize (Hst h ".autorc").
  destruct (has_file w (url r) ".autorc" h) as [t1 [[]|e1]]; simpl; intros Ha.
  - generalize (Hst (h ++ t1) ".github/dependabot.yml").
    destruct (has_file w (url r) ".github/dependabot.yml" (h ++ t1))
      as [t2 [[]|e2]]; simpl; intros Hb;
      rewrite ?stdout_app, ?Ha, ?Hb; simpl.
    + split; [|split]; [done| |by intros [|]].
      split; [done|]. intros H. by destruct H.
    + split; [|split]; [| |by intros [|]].
      * split; [done|]. by intros (_&_&_&?).
      * split; [|done]. by intros _ (_&_&_&?).
    + split; [|split]; [| |by intros [|]].
      * split; [done|]. by intros (_&_&_&?).
      * split; [|done]. by intros _ (_&_&_&?).
  - rewrite Ha. split; [|split]; [| |by intros [|]].
    + split; [done|]. by intros (_&_&?&_).
    + split; [|done]. by intros _ (_&_&?&_).
  - rewrite Ha. split; [|split]; [| |by intros [|]].
    + split; [done|]. by intros (_&_&?&_).
    + split; [|done]. by intros _ (_&_&?&_).
Qed.

(** C9. For a repository object that is neither archived nor a fork and
    whose [.autorc] existence check returns [False], the loop body issues
    that one HEAD request and stops: the [.github/dependabot.yml] check is
    not issued. *)
Theorem C9_no_second_check w h r :
  archived r = false →
  fork r = false →
  (has_file w (url r) ".autorc" h).2 = Ok false →
  scan_repo w r h =
    ([EHead (url r +:+ "/contents/.autorc") (Raise (PrettyHTTPError 404))],
     Ok tt) ∧
  head_urls (scan_repo w r h).1 = [url r +:+ "/contents/.autorc"] ∧
  ¬ In (url r +:+ "/contents/.github/dependabot.yml")
       (head_urls (scan_repo w r h).1).
Proof.
  intros Harch Hfork Hfalse.
  destruct (has_file_false_404 w h (url r) ".autorc") as [H1 H2].
  apply H2 in Hfalse.
  rewrite scan_repo_run, Harch, Hfork. simpl.
  rewrite has_file_run. simpl. rewrite Hfalse. simpl.
  split; [done|]. split; [done|].
  intros [H|[]]. by apply append_inj_l in H.
Qed.

(** The loop body asks for no listing and prints at most the name of
    its repository. *)
Lemma scan_repo_trace w r h :
  listings (scan_repo w r h).1 = [] ∧
  stdout (scan_repo w r h).1 `sublist_of` [full_name r].
Proof.
  rewrite scan_repo_run. cbv zeta. rewrite !has_file_run. simpl.
  repeat case_match; simpl; (split; [done|]);
    first [apply sublist_nil_l | reflexivity].
Qed.

Lemma for_each_scan_repo_trace w l h :
  listings (for_each l (scan_repo w) h).1 = [] ∧
  stdout (for_each l (scan_repo w) h).1 `sublist_of` map full_name l.
Proof.
  revert h. induction l as [|r l IH]; intros h; simpl; [done|].
  rewrite bind_fst. rewrite listings_app, stdout_app.
  destruct (scan_repo_trace w r h) as [Hl Hs]. rewrite Hl. simpl.
  destruct (scan_repo w r h).2 as [[]|e].
  - destruct (IH (h ++ (scan_repo w r h).1)) as [IHl IHs].
    split; [done|]. by apply (sublist_app _ [full_name r]).
  - simpl. split; [done|]. rewrite app_nil_r.
    by apply (sublist_inserts_r (map full_name l) _ [full_name r]).
Qed.

Lemma for_iter_trace w it h :
  listings (for_iter it (scan_repo w) h).1 = [] ∧
  stdout (for_iter it (scan_repo w) h).1 `sublist_of` map full_name it.1.
Proof.
  unfold for_iter. rewrite bind_fst, listings_app, stdout_app.
  destruct (for_each_scan_repo_trace w it.1 h) as [Hl Hs]. rewrite Hl.
  destruct (for_each it.1 (scan_repo w) h).2 as [[]|e]; [destruct it.2|];
    simpl; by rewrite app_nil_r.
Qed.

(** One owner: one listing is asked for, and what is printed follows the
    order of its items. *)
Lemma scan_owner_trace w owner h :
  let items := (paginate w h ("/users/" +:+ owner +:+ "/repos")).1 in
  listings (scan_owner w owner h).1 =
    [("/users/" +:+ owner +:+ "/repos", items)] ∧
  stdout (scan_owner w owner h).1 `sublist_of` map full_name items.
Proof.
  intros items. unfold scan_owner.
  rewrite bind_fst. simpl. fold items.
  destruct (for_iter_trace w (paginate w h ("/users/" +:+ owner +:+ "/repos"))
              (h ++ [EPaginate ("/users/" +:+ owner +:+ "/repos") items
                       (paginate w h ("/users/" +:+ owner +:+ "/repos")).2]))
    as [Hl Hs].
  by rewrite Hl.
Qed.

Lemma for_each_scan_owner_trace w owners h :
  let run := for_each owners (scan_owner w) h in
  map fst (listings run.1)
    `prefix_of` map (λ owner, "/users/" +:+ owner +:+ "/repos") owners ∧
  (run.2 = Ok tt →
   map fst (listings run.1) =
     map (λ owner, "/users/" +:+ owner +:+ "/repos") owners) ∧
  stdout run.1 `sublist_of` listed_names (listings run.1).
Proof.
  revert h. induction owners as [|owner owners IH]; intros h; simpl.
  { split; [done|]. split; [done|]. apply sublist_nil_l. }
  rewrite bind_fst, bind_snd, listings_app, stdout_app.
  destruct (scan_owner_trace w owner h) as [Hl Hs]. rewrite Hl.
  destruct (scan_owner w owner h).2 as [[]|e].
  - destruct (IH (h ++ (scan_owner w owner h).1)) as (IH1 & IH2 & IH3).
    simpl. split; [by apply prefix_cons|].
    split; [intros H; f_equal; by apply IH2|].
    by apply sublist_app.
  - simpl. split; [apply prefix_cons, prefix_nil|]. split; [done|].
    rewrite !app_nil_r. done.
Qed.

(** C9 on [tinuous] in the environment where nothing is found. *)
Lemma C9_no_second_check_witness :
  archived tinuous = false ∧
  fork tinuous = false ∧
  (has_file bare_world (url tinuous) ".autorc" []).2 = Ok false ∧
  scan_repo bare_world tinuous [] =
    ([EHead (url tinuous +:+ "/contents/.autorc")
            (Raise (PrettyHTTPError 404))], Ok tt) ∧
  head_urls (scan_repo bare_world tinuous []).1
    = [url tinuous +:+ "/contents/.autorc"] ∧
  ¬ In (url tinuous +:+ "/contents/.github/dependabot.yml")
       (head_urls (scan_repo bare_world tinuous []).1).
Proof.
  split; [reflexivity|]. split; [reflexivity|]. split; [reflexivity|].
  apply (C9_no_second_check bare_world [] tinuous); reflexivity.
Defined.

(** ** The run as a whole *)

Lemma heads_app t1 t2 : heads (t1 ++ t2) = heads t1 ++ heads t2.
Proof. apply omap_app. Qed.

Lemma listing_errors_app t1 t2 :
  listing_errors (t1 ++ t2) = listing_errors t1 ++ listing_errors t2.
Proof. apply omap_app. Qed.

(** One owner: the listing, then the loop body on each item. *)
Lemma scan_owner_run w owner h :
  let path := "/users/" +:+ owner +:+ "/repos" in
  let it := paginate w h path in
  let loop := for_each it.1 (scan_repo w) (h ++ [EPaginate path it.1 it.2]) in
  scan_owner w owner h =
    (EPaginate path it.1 it.2 :: loop.1,
     match loop.2 with
     | Ok _ => match it.2 with Some e => Raise e | None => Ok tt end
     | Raise e => Raise e
     end).
Proof.
  cbv zeta. unfold scan_owner, get_repos_for_owner, for_iter.
  unfold bind at 1. simpl.
  destruct (bind _ _ _) as [t r] eqn:Hb.
  apply bind_inv in Hb as [(e & Hl & ->)|(t1 & [] & t2 & Hl & Hr & ->)];
    rewrite Hl; simpl; [done|].
  destruct (paginate w h _).2; injection Hr as <- <-; by rewrite app_nil_r.
Qed.

Lemma scan_main_run w h :
  main w h =
    match ghtoken w h with
    | Ok token =>
        let loop := for_each OWNERS (scan_owner w) (h ++ [EGhToken (Ok token)]) in
        (EGhToken (Ok token) :: loop.1, loop.2)
    | Raise e => ([EGhToken (Raise e)], Raise e)
    end.
Proof.
  unfold main.
  rewrite (bind_run _ _ h [EGhToken (ghtoken w h)] (ghtoken w h) eq_refl).
  by destruct (ghtoken w h).
Qed.

(** The loop body prints the name of its record exactly when the record
    qualifies. *)
Lemma scan_repo_lines w r h :
  stdout (scan_repo w r h).1 =
    if qualifies_at w h r then [full_name r] else [].
Proof.
  rewrite scan_repo_run. unfold qualifies_at.
  destruct (archived r), (fork r); simpl; try done.
  rewrite !has_file_run. cbn [fst snd].
  change ("/contents/" +:+ ".autorc") with "/contents/.autorc".
  change ("/contents/" +:+ ".github/dependabot.yml")
    with "/contents/.github/dependabot.yml".
  destruct (request_head w h (url r +:+ "/contents/.autorc"))
    as [[]|[sc1| | |]];
    [destruct (request_head w _ (url r +:+ "/contents/.github/dependabot.yml"))
       as [[]|[sc2| | |]]| | | |];
    try destruct (Z.eqb sc1 404); try destruct (Z.eqb sc2 404); done.
Qed.

(** The loop over a listing prints the lines the specification asks for,
    up to where it stops. *)
Lemma for_each_scan_repo_lines w items h :
  let run := for_each items (scan_repo w) h in
  stdout run.1 `prefix_of` lines_of_listing w h items ∧
  (run.2 = Ok tt → stdout run.1 = lines_of_listing w h items).
Proof.
  revert h. induction items as [|r items IH]; intros h; simpl; [done|].
  rewrite bind_fst, bind_snd, stdout_app, scan_repo_lines.
  destruct (scan_repo w r h).2 as [[]|e].
  - destruct (IH (h ++ (scan_repo w r h).1)) as [IH1 IH2].
    split; [by apply prefix_app|]. intros Hok. by rewrite (IH2 Hok).
  - simpl. rewrite app_nil_r. split; [|done].
    by apply prefix_app_r.
Qed.

Lemma scan_owner_lines w owner h :
  let path := "/users/" +:+ owner +:+ "/repos" in
  let it := paginate w h path in
  let expected := lines_of_listing w (h ++ [EPaginate path it.1 it.2]) it.1 in
  stdout (scan_owner w owner h).1 `prefix_of` expected ∧
  ((scan_owner w owner h).2 = Ok tt →
   stdout (scan_owner w owner h).1 = expected).
Proof.
  cbv zeta.
  pose proof (scan_owner_run w owner h) as Hrun. cbv zeta in Hrun.
  rewrite Hrun. cbn [fst snd].
  change (stdout (EPaginate ?p ?i ?e :: ?t)) with (stdout t).
  destruct (for_each_scan_repo_lines w
              (paginate w h ("/users/" +:+ owner +:+ "/repos")).1
              (h ++ [EPaginate ("/users/" +:+ owner +:+ "/repos")
                       (paginate w h ("/users/" +:+ owner +:+ "/repos")).1
                       (paginate w h ("/users/" +:+ owner +:+ "/repos")).2]))
    as [H1 H2].
  split; [exact H1|]. intros Hok. apply H2.
  by destruct (for_each _ _ _).2 as [[]|e].
Qed.

Lemma for_each_scan_owner_lines w owners h :
  let run := for_each owners (scan_owner w) h in
  stdout run.1 `prefix_of` lines_of_owners w h owners ∧
  (run.2 = Ok tt → stdout run.1 = lines_of_owners w h owners).
Proof.
  revert h. induction owners as [|owner owners IH]; intros h; [done|].
  cbn [for_each lines_of_owners]. cbv zeta.
  rewrite bind_fst, bind_snd, stdout_app.
  destruct (scan_owner_lines w owner h) as [H1 H2].
  destruct (scan_owner w owner h).2 as [[]|e].
  - rewrite (H2 eq_refl).
    destruct (IH (h ++ (scan_owner w owner h).1)) as [IH1 IH2].
    split; [by apply prefix_app|]. intros Hok. by rewrite (IH2 Hok).
  - cbn [stdout omap]. rewrite app_nil_r. split; [|done].
    by apply prefix_app_r.
Qed.

(** C8. The listings are asked for in the order of [OWNERS] (con, dandi,
    datalad, duecredit, ReproNim; all five when the run completes), and
    the lines printed are, in order, full names taken from the
    concatenation of the listings in that order: nothing is sorted or
    moved.  More precisely the output is what the specification asks
    for: for con, then dandi, datalad, duecredit and ReproNim, the full
    names of the qualifying repositories of the listing of that owner, in
    the order of the listing.  A run that ends normally has printed all
    of these lines, and a run that fails has printed an initial part of
    them. *)
Theorem C8_output_order w h :
  let run := main w h in
  let expected :=
    lines_of_owners w (h ++ [EGhToken (ghtoken w h)])
                    ["con"; "dandi"; "datalad"; "duecredit"; "ReproNim"] in
  map fst (listings run.1)
    `prefix_of` map (λ owner, "/users/" +:+ owner +:+ "/repos") OWNERS ∧
  (run.2 = Ok tt →
   map fst (listings run.1) =
     [ "/users/con/repos"; "/users/dandi/repos"; "/users/datalad/repos";
       "/users/duecredit/repos"; "/users/ReproNim/repos" ]) ∧
  stdout run.1 `sublist_of` listed_names (listings run.1) ∧
  stdout run.1 `prefix_of` expected ∧
  (run.2 = Ok tt → stdout run.1 = expected).
Proof.
  intros run expected. subst run expected. unfold main.
  rewrite bind_fst, bind_snd.
  change (get_ghtoken w h) with ([EGhToken (ghtoken w h)], ghtoken w h).
  cbn [fst snd]. rewrite listings_app, stdout_app.
  destruct (ghtoken w h) as [token|e].
  - destruct (for_each_scan_owner_trace w OWNERS (h ++ [EGhToken (Ok token)]))
      as (H1 & H2 & H3).
    destruct (for_each_scan_owner_lines w OWNERS (h ++ [EGhToken (Ok token)]))
      as (H4 & H5).
    split; [exact H1|]. split; [exact H2|]. split; [exact H3|].
    split; [exact H4|exact H5].
  - simpl. split; [apply prefix_nil|]. split; [done|].
    split; [apply sublist_nil_l|]. split; [apply prefix_nil|done].
Qed.

(** *** A failure ends the scan *)

Lemma stops_has_file w repo_url path h :
  stops_at_failure fatal (has_file w repo_url path h).
Proof.
  rewrite has_file_run. eapply stops_single; [done|]. simpl.
  destruct (request_head w h _) as [[]|[sc| | |]]; simpl; try naive_solver.
  destruct (Z.eqb sc 404); naive_solver.
Qed.

Lemma stops_scan_repo w r h : stops_at_failure fatal (scan_repo w r h).
Proof.
  unfold scan_repo. destruct (archived r || fork r); [by apply stops_nil|].
  apply stops_bind; [apply stops_has_file|]. intros a h'.
  apply stops_bind.
  - destruct a; [apply stops_has_file|by apply stops_nil].
  - intros [] h''; [|by apply stops_nil].
    by apply (stops_single _ _ (EPrint (full_name r))).
Qed.

Lemma stops_scan_owner w owner h : stops_at_failure fatal (scan_owner w owner h).
Proof.
  unfold scan_owner, get_repos_for_owner, for_iter.
  apply stops_bind; [by eapply stops_single|]. intros it h'.
  apply stops_bind.
  - apply stops_for_each. intros; apply stops_scan_repo.
  - intros _ h''. destruct it.2; by apply stops_nil.
Qed.

Lemma stops_main w h : stops_at_failure fatal (main w h).
Proof.
  unfold main. apply stops_bind.
  - eapply stops_single; [done|]. simpl. destruct (ghtoken w h); naive_solver.
  - intros _ h'. apply stops_for_each. intros; apply stops_scan_owner.
Qed.

(** X1. In a run of the scanner, a token that cannot be had and a HEAD
    request that raises anything other than an HTTP 404 are the last event
    of the run, and the run ends with that exception: no later repository
    is checked, no later owner is listed and nothing more is printed. *)
Theorem X1_scan_stops_at_failure w h t1 ev t2 e :
  (main w h).1 = t1 ++ ev :: t2 →
  fatal ev = Some e →
  t2 = [] ∧ (main w h).2 = Raise e.
Proof. intros Ht Hev. by apply (stops_main w h t1 ev t2 e). Qed.

(** *** A 404 does not end it *)

Lemma has_file_answers w repo_url path h :
  (∀ h' u, request_head w h' u = Ok tt ∨
           request_head w h' u = Raise (PrettyHTTPError 404)) →
  ∃ b, (has_file w repo_url path h).2 = Ok b.
Proof.
  intros Hhead. rewrite has_file_run. cbn [snd].
  destruct (Hhead h (repo_url +:+ "/contents/" +:+ path)) as [->| ->];
    by eexists.
Qed.

Lemma scan_repo_ok w r h :
  (∀ h' u, request_head w h' u = Ok tt ∨
           request_head w h' u = Raise (PrettyHTTPError 404)) →
  (scan_repo w r h).2 = Ok tt.
Proof.
  intros Hhead. rewrite scan_repo_run.
  destruct (archived r || fork r); [done|]. cbv zeta.
  destruct (has_file_answers w (url r) ".autorc" h Hhead) as [[] ->]; [|done].
  by destruct (has_file_answers w (url r) ".github/dependabot.yml"
                 (h ++ (has_file w (url r) ".autorc" h).1) Hhead) as [[] ->].
Qed.

(** X2. When the token is had, no listing breaks off and every HEAD
    request is answered with success or with a 404, the scan ends
    normally and has listed all five owners: a missing file never aborts
    the run. *)
Theorem X2_scan_completes w h token :
  ghtoken w h = Ok token →
  (∀ h' p, (paginate w h' p).2 = None) →
  (∀ h' u, request_head w h' u = Ok tt ∨
           request_head w h' u = Raise (PrettyHTTPError 404)) →
  (main w h).2 = Ok tt ∧
  map fst (listings (main w h).1) =
    [ "/users/con/repos"; "/users/dandi/repos"; "/users/datalad/repos";
      "/users/duecredit/repos"; "/users/ReproNim/repos" ].
Proof.
  intros Htoken Hpages Hhead.
  assert (Hok : (main w h).2 = Ok tt).
  { rewrite scan_main_run, Htoken. cbv zeta. cbn [snd].
    apply for_each_ok. intros owner h' _.
    rewrite scan_owner_run. cbv zeta. cbn [snd].
    rewrite for_each_ok, Hpages; [done|].
    intros r h'' _. by apply scan_repo_ok. }
  split; [done|]. revert Hok. rewrite scan_main_run, Htoken. cbv zeta.
  cbn [fst snd].
  destruct (for_each_scan_owner_trace w OWNERS (h ++ [EGhToken (Ok token)]))
    as (_ & Hall & _).
  intros Hok. by apply Hall.
Qed.

(** *** Only live repositories are checked, only checked ones printed *)

Lemma live_in_app_l t1 t2 r : live_in t1 r → live_in (t1 ++ t2) r.
Proof.
  intros (p & items & Hl & H). exists p, items. split; [|done].
  rewrite listings_app. apply in_or_app. by left.
Qed.

Lemma live_in_app_r t1 t2 r : live_in t2 r → live_in (t1 ++ t2) r.
Proof.
  intros (p & items & Hl & H). exists p, items. split; [|done].
  rewrite listings_app. apply in_or_app. by right.
Qed.

Lemma checked_scan_nil : checked_scan [].
Proof. split; intros ? ?; by simpl. Qed.

Lemma checked_scan_app t1 t2 :
  checked_scan t1 → checked_scan t2 → checked_scan (t1 ++ t2).
Proof.
  intros [H1 P1] [H2 P2]. split.
  - intros u ans. rewrite heads_app. intros Hin.
    apply in_app_or in Hin as [Hin|Hin].
    + destruct (H1 u ans Hin) as (r & Hr & Hu). exists r.
      split; [by apply live_in_app_l|done].
    + destruct (H2 u ans Hin) as (r & Hr & Hu). exists r.
      split; [by apply live_in_app_r|done].
  - intros line. rewrite stdout_app, heads_app. intros Hin.
    apply in_app_or in Hin as [Hin|Hin].
    + destruct (P1 line Hin) as (r & Hr & Hn & Ha & Hd). exists r.
      split; [by apply live_in_app_l|]. split; [done|].
      split; apply in_or_app; by left.
    + destruct (P2 line Hin) as (r & Hr & Hn & Ha & Hd). exists r.
      split; [by apply live_in_app_r|]. split; [done|].
      split; apply in_or_app; by right.
Qed.

(** The same two facts for the loop body, with the repository at hand. *)
Lemma scan_repo_checked w r h :
  (∀ u ans, In (u, ans) (heads (scan_repo w r h).1) →
     archived r = false ∧ fork r = false ∧
     (u = url r +:+ "/contents/.autorc" ∨
      u = url r +:+ "/contents/.github/dependabot.yml")) ∧
  (∀ line, In line (stdout (scan_repo w r h).1) →
     archived r = false ∧ fork r = false ∧ line = full_name r ∧
     In (url r +:+ "/contents/.autorc", Ok tt) (heads (scan_repo w r h).1) ∧
     In (url r +:+ "/contents/.github/dependabot.yml", Ok tt)
        (heads (scan_repo w r h).1)).
Proof.
  rewrite scan_repo_run.
  destruct (archived r), (fork r); simpl; try (split; intros ? ?; by simpl).
  rewrite !has_file_run. cbn [fst snd].
  destruct (request_head w h _) as [[]|[sc1| | |]];
    [destruct (request_head w _ _) as [[]|[sc2| | |]]| | | |];
    try destruct (Z.eqb sc1 404); try destruct (Z.eqb sc2 404);
    simpl; (split; [intros u ans Hin|intros line Hin]);
    repeat (destruct Hin as [Hin|Hin]); try done; simplify_eq; auto 10.
Qed.

Lemma scan_owner_checked w owner h : checked_scan (scan_owner w owner h).1.
Proof.
  rewrite scan_owner_run. cbv zeta. cbn [fst].
  set (path := "/users/" +:+ owner +:+ "/repos").
  set (it := paginate w h path).
  set (h' := h ++ [EPaginate path it.1 it.2]).
  pose (G := λ t : list Event,
    (∀ u ans, In (u, ans) (heads t) →
       ∃ r, In r it.1 ∧ archived r = false ∧ fork r = false ∧
            (u = url r +:+ "/contents/.autorc" ∨
             u = url r +:+ "/contents/.github/dependabot.yml")) ∧
    (∀ line, In line (stdout t) →
       ∃ r, In r it.1 ∧ archived r = false ∧ fork r = false ∧
            line = full_name r ∧
            In (url r +:+ "/contents/.autorc", Ok tt) (heads t) ∧
            In (url r +:+ "/contents/.github/dependabot.yml", Ok tt)
               (heads t))).
  assert (HG : G (for_each it.1 (scan_repo w) h').1).
  { apply for_each_closed.
    - split; intros ? ?; by simpl.
    - intros t1 t2 [H1 P1] [H2 P2]. split.
      + intros u ans. rewrite heads_app. intros Hin.
        apply in_app_or in Hin as [Hin|Hin]; eauto.
      + intros line. rewrite stdout_app, heads_app. intros Hin.
        apply in_app_or in Hin as [Hin|Hin].
        * destruct (P1 line Hin) as (r & ? & ? & ? & ? & ? & ?).
          exists r. repeat (split; [done|]). split; apply in_or_app; by left.
        * destruct (P2 line Hin) as (r & ? & ? & ? & ? & ? & ?).
          exists r. repeat (split; [done|]). split; apply in_or_app; by right.
    - intros r h'' Hr. destruct (scan_repo_checked w r h'') as [Hh Hp]. split.
      + intros u ans Hin. exists r. split; [done|]. by apply (Hh u ans).
      + intros line Hin. exists r. split; [done|]. by apply Hp. }
  destruct HG as [Hh Hp].
  assert (Hlive : ∀ t r, In r it.1 → archived r = false → fork r = false →
                         live_in (EPaginate path it.1 it.2 :: t) r).
  { intros t r Hr Ha Hf. exists path, it.1. split; [by left|done]. }
  split.
  - intros u ans Hin. destruct (Hh u ans Hin) as (r & Hr & Ha & Hf & Hu).
    exists r. split; [by apply Hlive|done].
  - intros line Hin.
    destruct (Hp line Hin) as (r & Hr & Ha & Hf & Hn & Hx & Hy).
    exists r. split; [by apply Hlive|done].
Qed.

Lemma main_checked w h : checked_scan (main w h).1.
Proof.
  rewrite scan_main_run. destruct (ghtoken w h) as [token|e]; cbv zeta; cbn [fst].
  - apply (checked_scan_app [EGhToken (Ok token)]).
    + split; intros ? ?; by simpl.
    + apply for_each_closed;
        [apply checked_scan_nil|apply checked_scan_app|].
      intros owner h' _. apply scan_owner_checked.
  - split; intros ? ?; by simpl.
Qed.

(** X3. Every HEAD request of a run of the scanner is the [.autorc] or
    the [.github/dependabot.yml] check of a repository that a listing of
    this run returned and that is neither archived nor a fork: an archived
    or forked repository is never queried, and nothing outside the
    listings is. *)
Theorem X3_heads_of_live_repos w h u ans :
  In (u, ans) (heads (main w h).1) →
  ∃ p items r,
    In (p, items) (listings (main w h).1) ∧ In r items ∧
    archived r = false ∧ fork r = false ∧
    (u = url r +:+ "/contents/.autorc" ∨
     u = url r +:+ "/contents/.github/dependabot.yml").
Proof.
  intros Hin. destruct (main_checked w h) as [Hh _].
  destruct (Hh u ans Hin) as (r & (p & items & ? & ? & ? & ?) & Hu).
  by exists p, items, r.
Qed.

(** X4. Every line a run of the scanner prints is the full name of a
    repository that a listing of this run returned, that is neither
    archived nor a fork, and for which the run made both existence checks
    and got a success for each. *)
Theorem X4_printed_repos_have_both_files w h line :
  In line (stdout (main w h).1) →
  ∃ p items r,
    In (p, items) (listings (main w h).1) ∧ In r items ∧
    archived r = false ∧ fork r = false ∧
    line = full_name r ∧
    In (url r +:+ "/contents/.autorc", Ok tt) (heads (main w h).1) ∧
    In (url r +:+ "/contents/.github/dependabot.yml", Ok tt)
       (heads (main w h).1).
Proof.
  intros Hin. destruct (main_checked w h) as [_ Hp].
  destruct (Hp line Hin) as (r & (p & items & ? & ? & ? & ?) & Hn & Ha & Hd).
  by exists p, items, r.
Qed.

(** *** The output for a server that answers by the URL alone *)

Lemma scan_repo_static w answer r h :
  (∀ h' u, request_head w h' u = answer u) →
  (scan_repo w r h).2 = Ok tt →
  stdout (scan_repo w r h).1 = if wanted answer r then [full_name r] else [].
Proof.
  intros Hstatic. rewrite scan_repo_run. unfold wanted, found.
  destruct (archived r), (fork r); simpl; try done.
  rewrite !has_file_run, !Hstatic. simpl.
  change ("/contents/" +:+ ".autorc") with "/contents/.autorc".
  change ("/contents/" +:+ ".github/dependabot.yml")
    with "/contents/.github/dependabot.yml".
  destruct (answer (url r +:+ "/contents/.autorc")) as [[]|[sc1| | |]];
    [destruct (answer (url r +:+ "/contents/.github/dependabot.yml"))
       as [[]|[sc2| | |]]| | | |];
    try destruct (Z.eqb sc1 404); try destruct (Z.eqb sc2 404); by simpl.
Qed.

Lemma stdout_concat {A} (g : A → list string) xs ts :
  Forall2 (λ x t, stdout t = g x) xs ts →
  stdout (concat ts) = flat_map g xs.
Proof.
  induction 1 as [|x t xs ts Hx _ IH]; simpl; [done|].
  by rewrite stdout_app, Hx, IH.
Qed.

Lemma flat_map_filter (keep : Repo → bool) l :
  flat_map (λ r, if keep r then [full_name r] else []) l
  = map full_name (List.filter keep l).
Proof.
  induction l as [|r l IH]; simpl; [done|].
  destruct (keep r); simpl; by rewrite IH.
Qed.

Lemma scan_owner_static w listing answer owner h :
  (∀ h' p, paginate w h' p = listing p) →
  (∀ h' u, request_head w h' u = answer u) →
  (scan_owner w owner h).2 = Ok tt →
  stdout (scan_owner w owner h).1 =
    map full_name
        (List.filter (wanted answer) (listing ("/users/" +:+ owner +:+ "/repos")).1).
Proof.
  intros Hl Ha. rewrite scan_owner_run. cbv zeta. cbn [fst snd].
  rewrite !Hl.
  destruct (for_each _ _ _).2 as [[]|e] eqn:Hloop; [|done]. intros _.
  apply (for_each_ok_inv
           (λ r t, stdout t = if wanted answer r then [full_name r] else []))
    in Hloop as (ts & -> & Hts).
  - change (stdout (EPaginate ?p ?i ?e :: ?t)) with (stdout t).
    by rewrite (stdout_concat _ _ _ Hts), flat_map_filter.
  - intros r h'. by apply scan_repo_static.
Qed.

(** X5. When the server answers a listing by its path alone and a HEAD
    request by its URL alone, a scan that ends normally prints exactly the
    full names of the listed repositories that are not archived, not a
    fork and have both files, owner after owner in the order of [OWNERS]
    and in the order of each listing; a repository listed twice is
    printed twice. *)
Theorem X5_output_of_static_server w h listing answer :
  (∀ h' p, paginate w h' p = listing p) →
  (∀ h' u, request_head w h' u = answer u) →
  (main w h).2 = Ok tt →
  stdout (main w h).1 =
    flat_map (λ owner,
                map full_name
                    (List.filter (wanted answer)
                       (listing ("/users/" +:+ owner +:+ "/repos")).1))
             ["con"; "dandi"; "datalad"; "duecredit"; "ReproNim"].
Proof.
  intros Hl Ha. rewrite scan_main_run.
  destruct (ghtoken w h) as [token|e]; [|done]. cbv zeta. cbn [fst snd].
  intros Hloop.
  apply (for_each_ok_inv
           (λ owner t, stdout t =
              map full_name
                  (List.filter (wanted answer)
                     (listing ("/users/" +:+ owner +:+ "/repos")).1)))
    in Hloop as (ts & -> & Hts).
  - change (stdout (EGhToken ?r :: ?t)) with (stdout t).
    by rewrite (stdout_concat _ _ _ Hts).
  - intros owner h'. by apply scan_owner_static.
Qed.

(** *** How a scan can end *)

Lemma raise_explained_bind {A B} (m : M Event A) (f : A → M Event B) h :
  raise_explained (m h) →
  (∀ a h', raise_explained (f a h')) →
  raise_explained (bind m f h).
Proof.
  intros Hm Hf e. rewrite bind_fst, bind_snd.
  destruct (m h) as [u1 [a|e1]]; simpl in *.
  - specialize (Hf a (h ++ u1)). intros Hr.
    destruct (Hf e Hr) as [(ev & Hin & Hev)|Hin].
    + left. exists ev. split; [|done]. apply in_or_app. by right.
    + right. rewrite listing_errors_app. apply in_or_app. by right.
  - rewrite app_nil_r. intros [= ->]. exact (Hm e eq_refl).
Qed.

Lemma raise_explained_for_each {A} (xs : list A) (body : A → M Event unit) h :
  (∀ x h', raise_explained (body x h')) →
  raise_explained (for_each xs body h).
Proof.
  intros Hbody. revert h. induction xs as [|x xs IH]; intros h; simpl.
  - by intros e.
  - apply raise_explained_bind; auto.
Qed.

Lemma listing_break_ends_bind {A B} (m : M Event A) (f : A → M Event B) h :
  listing_break_ends (m h) →
  (∀ a h', listing_break_ends (f a h')) →
  listing_break_ends (bind m f h).
Proof.
  intros [Hm1 Hm2] Hf. unfold listing_break_ends.
  rewrite bind_fst, bind_snd.
  destruct (m h) as [u1 [a|e1]]; simpl in *.
  - destruct (Hf a (h ++ u1)) as [Hf1 Hf2].
    rewrite listing_errors_app, (Hm1 a eq_refl). simpl. split.
    + intros b Hb. by apply (Hf1 b).
    + intros e Hin Hnone. apply Hf2; [done|].
      intros ev Hev. apply Hnone, in_or_app. by right.
  - rewrite app_nil_r. split; [done|]. intros e Hin Hnone.
    by injection (Hm2 e Hin Hnone) as ->.
Qed.

Lemma listing_break_ends_for_each {A} (xs : list A)
    (body : A → M Event unit) h :
  (∀ x h', listing_break_ends (body x h')) →
  listing_break_ends (for_each xs body h).
Proof.
  intros Hbody. revert h. induction xs as [|x xs IH]; intros h; simpl.
  - split; [done|]. by intros e [].
  - apply listing_break_ends_bind; auto.
Qed.

Lemma raise_explained_has_file w repo_url path h :
  raise_explained (has_file w repo_url path h).
Proof.
  rewrite has_file_run. intros e. simpl.
  destruct (request_head w h _) as [[]|[sc| | |]] eqn:E; simpl; try done.
  - destruct (Z.eqb sc 404) eqn:E404; [done|]. intros [= <-].
    left. eexists. split; [by left|]. simpl. by rewrite E404.
  - intros [= <-]. left. eexists. split; [by left|done].
  - intros [= <-]. left. eexists. split; [by left|done].
  - intros [= <-]. left. eexists. split; [by left|done].
Qed.

Lemma raise_explained_scan_repo w r h : raise_explained (scan_repo w r h).
Proof.
  unfold scan_repo. destruct (archived r || fork r); [by intros e|].
  apply raise_explained_bind; [apply raise_explained_has_file|]. intros a h'.
  apply raise_explained_bind.
  - destruct a; [apply raise_explained_has_file|by intros e].
  - by intros [] h'' e.
Qed.

Lemma scan_loop_no_listing w l h :
  listing_errors (for_each l (scan_repo w) h).1 = [].
Proof.
  apply for_each_closed; [done| |].
  - intros t1 t2 H1 H2. by rewrite listing_errors_app, H1, H2.
  - intros r h' _. rewrite scan_repo_run.
    destruct (archived r || fork r); [done|]. cbv zeta.
    rewrite !has_file_run. cbn [fst snd].
    destruct (request_head w h' _) as [[]|[sc1| | |]];
      [destruct (request_head w _ _) as [[]|[sc2| | |]]| | | |];
      try destruct (Z.eqb sc1 404); try destruct (Z.eqb sc2 404); done.
Qed.

Lemma raise_explained_scan_owner w owner h :
  raise_explained (scan_owner w owner h).
Proof.
  rewrite scan_owner_run. cbv zeta. intros e. cbn [fst snd].
  pose proof (raise_explained_for_each
                (paginate w h ("/users/" +:+ owner +:+ "/repos")).1
                (scan_repo w)
                (h ++ [EPaginate ("/users/" +:+ owner +:+ "/repos")
                         (paginate w h ("/users/" +:+ owner +:+ "/repos")).1
                         (paginate w h ("/users/" +:+ owner +:+ "/repos")).2])
                (raise_explained_scan_repo w)) as Hloop.
  unfold raise_explained in Hloop. rewrite scan_loop_no_listing in Hloop.
  destruct (for_each _ _ _).2 as [[]|e'] eqn:Hr.
  - destruct (paginate w h _).2 as [e''|]; [|done]. intros [= <-].
    right. by left.
  - intros [= <-].
    destruct (Hloop e' eq_refl) as [(ev & Hin & Hev)|[]].
    left. exists ev. split; [by right|done].
Qed.

Lemma listing_break_ends_scan_owner w owner h :
  listing_break_ends (scan_owner w owner h).
Proof.
  rewrite scan_owner_run. cbv zeta. unfold listing_break_ends. cbn [fst snd].
  pose proof (raise_explained_for_each
                (paginate w h ("/users/" +:+ owner +:+ "/repos")).1
                (scan_repo w)
                (h ++ [EPaginate ("/users/" +:+ owner +:+ "/repos")
                         (paginate w h ("/users/" +:+ owner +:+ "/repos")).1
                         (paginate w h ("/users/" +:+ owner +:+ "/repos")).2])
                (raise_explained_scan_repo w)) as Hloop.
  unfold raise_explained in Hloop. rewrite scan_loop_no_listing in Hloop.
  change (listing_errors (EPaginate ?p ?i ?err :: ?t))
    with (match err with Some e => e :: listing_errors t
                       | None => listing_errors t end).
  rewrite scan_loop_no_listing.
  destruct (paginate w h _).2 as [e0|].
  - split.
    + intros a. by destruct (for_each _ _ _).2.
    + intros e [<-|[]] Hnone.
      destruct (for_each _ _ _).2 as [[]|e'] eqn:Hr; [done|].
      destruct (Hloop e' eq_refl) as [(ev & Hin & Hev)|[]].
      rewrite Hnone in Hev; [done|by right].
  - split; [done|]. by intros e [].
Qed.

Lemma main_endings w h :
  raise_explained (main w h) ∧ listing_break_ends (main w h).
Proof.
  unfold main. split.
  - apply raise_explained_bind.
    + intros e. unfold get_ghtoken. simpl. intros He. left.
      eexists. split; [by left|]. simpl. by rewrite He.
    + intros _ h'. apply raise_explained_for_each.
      intros; apply raise_explained_scan_owner.
  - apply listing_break_ends_bind.
    + split; [done|]. by intros e [].
    + intros _ h'. apply listing_break_ends_for_each.
      intros; apply listing_break_ends_scan_owner.
Qed.

(** X6. When a listing breaks off with an exception in a run of the
    scanner, the run does not end normally; and unless a call failed (X1),
    the run ends with the exception of the listing. *)
Theorem X6_broken_listing_ends_scan w h e :
  In e (listing_errors (main w h).1) →
  (main w h).2 ≠ Ok tt ∧
  ((∀ ev, In ev (main w h).1 → fatal ev = None) → (main w h).2 = Raise e).
Proof.
  intros Hin. destruct (main_endings w h) as [_ [Hok Hraise]]. split.
  - intros Hr. rewrite (Hok tt Hr) in Hin. destruct Hin.
  - by apply Hraise.
Qed.

(** X7. A run of the scanner raises nothing of its own: the exception it
    ends with is that of the token, of a HEAD request that raised
    something other than a 404, or of a listing that broke off. *)
Theorem X7_scan_raises_nothing_of_its_own w h e :
  (main w h).2 = Raise e →
  (∃ ev, In ev (main w h).1 ∧ fatal ev = Some e) ∨
  In e (listing_errors (main w h).1).
Proof. intros Hr. destruct (main_endings w h) as [Hex _]. by apply Hex. Qed.

(** *** The properties at the example environments *)

(** C8 in the environment of the three [con] repositories: the run ends
    normally and prints [con/tinuous], the one that qualifies. *)
Lemma C8_output_order_witness :
  (main con_world []).2 = Ok tt ∧
  stdout (main con_world []).1 =
    lines_of_owners con_world ([] ++ [EGhToken (ghtoken con_world [])])
                    ["con"; "dandi"; "datalad"; "duecredit"; "ReproNim"] ∧
  lines_of_owners con_world ([] ++ [EGhToken (ghtoken con_world [])])
                  ["con"; "dandi"; "datalad"; "duecredit"; "ReproNim"]
    = ["con/tinuous"].
Proof.
  split; [vm_compute; reflexivity|]. split; [|vm_compute; reflexivity].
  pose proof (C8_output_order con_world []) as H. cbv zeta in H.
  destruct H as (_ & _ & _ & _ & H). apply H. vm_compute; reflexivity.
Defined.

(** X1 where the first HEAD request is answered with a 500. *)
Lemma X1_scan_stops_at_failure_witness :
  (main broken_world []).1 = broken_before ++ broken_event :: [] ∧
  fatal broken_event = Some (PrettyHTTPError 500) ∧
  (@nil Event = [] ∧ (main broken_world []).2 = Raise (PrettyHTTPError 500)).
Proof.
  split; [vm_compute; reflexivity|]. split; [reflexivity|].
  apply (X1_scan_stops_at_failure broken_world [] broken_before broken_event
           [] (PrettyHTTPError 500)).
  - vm_compute; reflexivity.
  - reflexivity.
Defined.

(** X2 in the environment of the three [con] repositories. *)
Lemma X2_scan_completes_witness :
  ghtoken con_world [] = Ok "token" ∧
  (∀ h' p, (paginate con_world h' p).2 = None) ∧
  (∀ h' u, request_head con_world h' u = Ok tt ∨
           request_head con_world h' u = Raise (PrettyHTTPError 404)) ∧
  (main con_world []).2 = Ok tt ∧
  map fst (listings (main con_world []).1) =
    [ "/users/con/repos"; "/users/dandi/repos"; "/users/datalad/repos";
      "/users/duecredit/repos"; "/users/ReproNim/repos" ].
Proof.
  assert (Hpages : ∀ (h' : list Event) p, (paginate con_world h' p).2 = None).
  { intros h' p. simpl. unfold con_listing. by destruct (String.eqb _ _). }
  assert (Hhead : ∀ (h' : list Event) u,
            request_head con_world h' u = Ok tt ∨
            request_head con_world h' u = Raise (PrettyHTTPError 404)).
  { intros h' u. simpl. unfold con_answer. destruct (_ || _); auto. }
  split; [reflexivity|]. split; [exact Hpages|]. split; [exact Hhead|].
  apply (X2_scan_completes con_world [] "token");
    [reflexivity|exact Hpages|exact Hhead].
Defined.

(** X3 for the first HEAD request of that run. *)
Lemma X3_heads_of_live_repos_witness :
  In ("https://api.github.com/repos/con/tinuous/contents/.autorc", Ok tt)
     (heads (main con_world []).1) ∧
  ∃ p items r,
    In (p, items) (listings (main con_world []).1) ∧ In r items ∧
    archived r = false ∧ fork r = false ∧
    ("https://api.github.com/repos/con/tinuous/contents/.autorc"
       = url r +:+ "/contents/.autorc" ∨
     "https://api.github.com/repos/con/tinuous/contents/.autorc"
       = url r +:+ "/contents/.github/dependabot.yml").
Proof.
  split; [vm_compute; by left|].
  apply (X3_heads_of_live_repos con_world []
           "https://api.github.com/repos/con/tinuous/contents/.autorc" (Ok tt)).
  vm_compute; by left.
Defined.

(** X4 for the one line that run prints. *)
Lemma X4_printed_repos_have_both_files_witness :
  In "con/tinuous" (stdout (main con_world []).1) ∧
  ∃ p items r,
    In (p, items) (listings (main con_world []).1) ∧ In r items ∧
    archived r = false ∧ fork r = false ∧
    "con/tinuous" = full_name r ∧
    In (url r +:+ "/contents/.autorc", Ok tt) (heads (main con_world []).1) ∧
    In (url r +:+ "/contents/.github/dependabot.yml", Ok tt)
       (heads (main con_world []).1).
Proof.
  split; [vm_compute; by left|].
  apply (X4_printed_repos_have_both_files con_world [] "con/tinuous").
  vm_compute; by left.
Defined.

(** X5 in the same environment: the output is [con/tinuous]. *)
Lemma X5_output_of_static_server_witness :
  (∀ h' p, paginate con_world h' p = con_listing p) ∧
  (∀ h' u, request_head con_world h' u = con_answer u) ∧
  (main con_world []).2 = Ok tt ∧
  stdout (main con_world []).1 =
    flat_map (λ owner,
                map full_name
                    (List.filter (wanted con_answer)
                       (con_listing ("/users/" +:+ owner +:+ "/repos")).1))
             ["con"; "dandi"; "datalad"; "duecredit"; "ReproNim"].
Proof.
  split; [reflexivity|]. split; [reflexivity|].
  split; [vm_compute; reflexivity|].
  apply (X5_output_of_static_server con_world [] con_listing con_answer);
    [reflexivity|reflexivity|vm_compute; reflexivity].
Defined.

(** X6 where the [con] listing breaks off with a 502. *)
Lemma X6_broken_listing_ends_scan_witness :
  In (PrettyHTTPError 502) (listing_errors (main broken_listing_world []).1) ∧
  (main broken_listing_world []).2 ≠ Ok tt ∧
  ((∀ ev, In ev (main broken_listing_world []).1 → fatal ev = None) →
   (main broken_listing_world []).2 = Raise (PrettyHTTPError 502)).
Proof.
  split; [vm_compute; by left|].
  apply (X6_broken_listing_ends_scan broken_listing_world []
           (PrettyHTTPError 502)).
  vm_compute; by left.
Defined.

(** X7 where the first HEAD request is answered with a 500. *)
Lemma X7_scan_raises_nothing_of_its_own_witness :
  (main broken_world []).2 = Raise (PrettyHTTPError 500) ∧
  ((∃ ev, In ev (main broken_world []).1 ∧
          fatal ev = Some (PrettyHTTPError 500)) ∨
   In (PrettyHTTPError 500) (listing_errors (main broken_world []).1)).
Proof.
  split; [vm_compute; reflexivity|].
  apply (X7_scan_raises_nothing_of_its_own broken_world []
           (PrettyHTTPError 500)).
  vm_compute; reflexivity.
Defined.

End ScannerSpec.

(** ** The Label Rewriter *)

Module RewriterSpec.
Import Rewriter.

(** *** Failures are fatal *)

Lemma fail_stop_nil {A} (run : list Event * Res A) :
  run.1 = [] → fail_stop run.
Proof. intros Hnil t1 ev t2 e Ht. rewrite Hnil in Ht. by destruct t1. Qed.

Lemma fail_stop_single {A} (run : list Event * Res A) ev :
  run.1 = [ev] →
  (∀ e, failed ev = Some e → run.2 = Raise e) →
  fail_stop run.
Proof.
  intros Hone Hev t1 ev' t2 e Ht Hf. rewrite Hone in Ht.
  destruct t1 as [|? [|]]; simplify_eq/=. auto.
Qed.

Lemma fail_stop_bind {A B} (m : M Event A) (f : A → M Event B) h :
  fail_stop (m h) →
  (∀ a, fail_stop (f a (h ++ (m h).1))) →
  fail_stop (bind m f h).
Proof.
  intros Hm Hf t1 ev t2 e. rewrite bind_fst, bind_snd.
  destruct (m h) as [u1 [a|e1]]; simpl in *.
  - intros Ht Hev. specialize (Hf a).
    destruct (f a (h ++ u1)) as [u2 r2]; simpl in *.
    apply app_eq_app in Ht as [l [[-> Hl]|[-> Hl]]].
    + destruct l as [|ev' l]; simpl in Hl.
      * apply (Hf [] ev t2 e); by simpl.
      * injection Hl as <- ->.
        destruct (Hm t1 ev l e) as [_ ?]; simpl; done.
    + by apply (Hf l ev t2 e).
  - rewrite app_nil_r. intros Ht Hev.
    by destruct (Hm t1 ev t2 e Ht Hev) as [-> [= ->]].
Qed.

Lemma fail_stop_for_each {A} (xs : list A) (body : A → M Event unit) h :
  (∀ x h', fail_stop (body x h')) → fail_stop (for_each xs body h).
Proof.
  intros Hbody. revert h. induction xs as [|x xs IH]; intros h; simpl.
  - by apply fail_stop_nil.
  - apply fail_stop_bind; auto.
Qed.

Section FailStop.
Context (w : World).

Lemma fail_stop_ret {A} (a : A) h : fail_stop (@ret Event A a h).
Proof. by apply fail_stop_nil. Qed.

Lemma fail_stop_lift {A} (r : Res A) h : fail_stop (@lift Event A r h).
Proof. by apply fail_stop_nil. Qed.

Lemma fail_stop_log_info fmt args h : fail_stop (log_info fmt args h).
Proof. by apply (fail_stop_single _ (ELog fmt args)). Qed.

Lemma fail_stop_get_ghtoken h : fail_stop (get_ghtoken w h).
Proof.
  apply (fail_stop_single _ (EGhToken (ghtoken w h))); [done|].
  simpl. destruct (ghtoken w h); naive_solver.
Qed.

Lemma fail_stop_get_local_repo d h : fail_stop (get_local_repo w d h).
Proof.
  apply (fail_stop_single _ (ELocalRepo d (local_repo w h d))); [done|].
  simpl. destruct (local_repo w h d); naive_solver.
Qed.

Lemma fail_stop_client_get path h : fail_stop (client_get w path h).
Proof.
  apply (fail_stop_single _ (EGet path (http_get w h path))); [done|].
  simpl. destruct (http_get w h path); naive_solver.
Qed.

Lemma fail_stop_client_patch path json h :
  fail_stop (client_patch w path json h).
Proof.
  apply (fail_stop_single _ (EPatch path json (http_patch w h path json)));
    [done|].
  simpl. destruct (http_patch w h path json); naive_solver.
Qed.

Lemma fail_stop_client_post path json h :
  fail_stop (client_post w path json h).
Proof.
  apply (fail_stop_single _ (EPost path json (http_post w h path json)));
    [done|].
  simpl. destruct (http_post w h path json); naive_solver.
Qed.

Lemma fail_stop_subprocess_run_check argv d h :
  fail_stop (subprocess_run_check w argv d h).
Proof.
  apply (fail_stop_single _ (ERun argv d (run w h argv d))); [done|].
  simpl. destruct (run w h argv d) as [code|]; [|naive_solver].
  destruct (Z.eqb code 0); naive_solver.
Qed.

Lemma fail_stop_read_text file h : fail_stop (read_text w file h).
Proof.
  apply (fail_stop_single _ (EReadText file (file_read w h file))); [done|].
  simpl. destruct (file_read w h file); naive_solver.
Qed.

Lemma fail_stop_write_text file content h :
  fail_stop (write_text w file content h).
Proof.
  apply (fail_stop_single _
           (EWriteText file content (file_write w h file content))); [done|].
  simpl. destruct (file_write w h file content); naive_solver.
Qed.

Ltac fail_stop_step :=
  lazymatch goal with
  | |- fail_stop (bind _ _ _) => apply fail_stop_bind; [|intros ?]
  | |- fail_stop (for_each _ _ _) => apply fail_stop_for_each; intros ? ?
  | |- fail_stop (ret _ _) => apply fail_stop_ret
  | |- fail_stop (lift _ _) => apply fail_stop_lift
  | |- fail_stop (log_info _ _ _) => apply fail_stop_log_info
  | |- fail_stop (get_ghtoken _ _) => apply fail_stop_get_ghtoken
  | |- fail_stop (get_local_repo _ _ _) => apply fail_stop_get_local_repo
  | |- fail_stop (client_get _ _ _) => apply fail_stop_client_get
  | |- fail_stop (client_patch _ _ _ _) => apply fail_stop_client_patch
  | |- fail_stop (client_post _ _ _ _) => apply fail_stop_client_post
  | |- fail_stop (subprocess_run_check _ _ _ _) =>
      apply fail_stop_subprocess_run_check
  | |- fail_stop (read_text _ _ _) => apply fail_stop_read_text
  | |- fail_stop (write_text _ _ _ _) => apply fail_stop_write_text
  | |- fail_stop (match ?x with _ => _ end _) => destruct x
  | |- fail_stop ((let '(_, _) := ?x in _) _) => destruct x
  end.

Lemma fail_stop_process_dir prefix title body d h :
  fail_stop (process_dir w prefix title body d h).
Proof.
  unfold process_dir, resolve_target, rename_labels, update_autorc, create_pr.
  repeat fail_stop_step.
Qed.

Lemma fail_stop_main prefix dirpath h : fail_stop (main w prefix dirpath h).
Proof.
  unfold main. cbv zeta. repeat fail_stop_step.
  apply fail_stop_process_dir.
Qed.
End FailStop.

(** *** What each block of [process_dir] asks for *)

Lemma patches_app t1 t2 : patches (t1 ++ t2) = patches t1 ++ patches t2.
Proof. apply omap_app. Qed.

Lemma posts_app t1 t2 : posts (t1 ++ t2) = posts t1 ++ posts t2.
Proof. apply omap_app. Qed.

Lemma gets_app t1 t2 : gets (t1 ++ t2) = gets t1 ++ gets t2.
Proof. apply omap_app. Qed.

Lemma local_repos_app t1 t2 :
  local_repos (t1 ++ t2) = local_repos t1 ++ local_repos t2.
Proof. apply omap_app. Qed.

Lemma reads_app t1 t2 : reads (t1 ++ t2) = reads t1 ++ reads t2.
Proof. apply omap_app. Qed.

Lemma writes_app t1 t2 : writes (t1 ++ t2) = writes t1 ++ writes t2.
Proof. apply omap_app. Qed.

(** Proves [Forall P (prog h).1] for a program built from the primitives,
    provided [P] holds of each event by computation. *)
Ltac all_events :=
  repeat lazymatch goal with
  | |- Forall _ (bind _ _ _).1 => apply Forall_bind; [|intros ? ?]
  | |- Forall _ (for_each _ _ _).1 => apply Forall_for_each; intros ? ?
  | |- Forall _ (match ?x with _ => _ end _).1 => destruct x
  | |- Forall _ ((let '(_, _) := ?x in _) _).1 => destruct x
  | |- Forall _ _ => by repeat constructor
  end.

Section Blocks.
Context (w : World).

Lemma resolve_target_run repo_data repo h :
  resolve_target w repo_data repo h =
  match parent repo_data with
  | Some p =>
      match GHRepo_parse w (full_name p) with
      | Ok target =>
          ([ELog "GitHub repository is a fork; operating on parent %s"
                 [GHRepo_str target]],
           Ok (Some (owner_login repo_data), target))
      | Raise e => ([], Raise e)
      end
  | None => ([], Ok (None, repo))
  end.
Proof.
  unfold resolve_target. destruct (parent repo_data) as [p|]; [|done].
  unfold bind, lift. by destruct (GHRepo_parse w (full_name p)).
Qed.

(** One iteration of the rename loop. *)
Lemma rename_body_run prefix repo label h :
  bind (log_info "%r -> %r" [label; prefix +:+ label])
       (λ _, client_patch w
               ("/repos/" +:+ GHRepo_str repo +:+ "/labels/" +:+ label)
               (JObj [("new_name", JStr (prefix +:+ label))])) h =
  let ans :=
    http_patch w (h ++ [ELog "%r -> %r" [label; prefix +:+ label]])
      ("/repos/" +:+ GHRepo_str repo +:+ "/labels/" +:+ label)
      (JObj [("new_name", JStr (prefix +:+ label))]) in
  ([ELog "%r -> %r" [label; prefix +:+ label];
    EPatch ("/repos/" +:+ GHRepo_str repo +:+ "/labels/" +:+ label)
           (JObj [("new_name", JStr (prefix +:+ label))]) ans],
   ans).
Proof. done. Qed.

(** The rename loop over any table of labels: the requests follow the
    table, and all of them are made when the loop completes. *)
Lemma rename_loop_patches prefix repo (ls : list (string * string)) h :
  let run :=
    for_each ls (λ '(label, _),
      let new_label := prefix +:+ label in
      log_info "%r -> %r" [label; new_label];;
      client_patch w
        ("/repos/" +:+ GHRepo_str repo +:+ "/labels/" +:+ label)
        (JObj [("new_name", JStr new_label)])) h in
  patches run.1
    `prefix_of` map (rename_request prefix (GHRepo_str repo)) (map fst ls) ∧
  (run.2 = Ok tt →
   patches run.1 = map (rename_request prefix (GHRepo_str repo)) (map fst ls)).
Proof.
  revert h. induction ls as [|[label rt] ls IH]; intros h; simpl.
  { split; [done|]. done. }
  cbv zeta. rewrite (bind_run _ _ _ _ _ (rename_body_run prefix repo label h)).
  cbv zeta. destruct (http_patch w _ _ _) as [[]|e]; cbn [fst snd].
  - rewrite patches_app.
    destruct (IH (h ++ [ELog "%r -> %r" [label; prefix +:+ label];
                   EPatch ("/repos/" +:+ GHRepo_str repo +:+ "/labels/" +:+ label)
                     (JObj [("new_name", JStr (prefix +:+ label))]) (Ok tt)]))
      as [IH1 IH2].
    split; [by apply (prefix_app [_])|]. intros H.
    by apply (f_equal (cons _)), IH2.
  - split; [|done]. apply (prefix_app_r [_] [_]). done.
Qed.

Lemma rename_labels_patches prefix repo h :
  let run := rename_labels w prefix repo h in
  patches run.1
    `prefix_of` map (rename_request prefix (GHRepo_str repo))
                    (map fst LABELS) ∧
  (run.2 = Ok tt →
   patches run.1 =
     map (rename_request prefix (GHRepo_str repo)) (map fst LABELS)).
Proof.
  unfold rename_labels. cbv zeta. rewrite bind_fst, bind_snd.
  cbn [log_info fst snd]. rewrite patches_app.
  change (patches [ELog "Renaming labels" []]) with (@nil (string * Json)).
  rewrite app_nil_l.
  apply (rename_loop_patches prefix repo LABELS).
Qed.

(** Inversion of the runs of the primitives. *)
Lemma log_info_inv fmt args h t r :
  log_info fmt args h = (t, r) → t = [ELog fmt args] ∧ r = Ok tt.
Proof. by intros [= <- <-]. Qed.

Lemma get_local_repo_inv d h t r :
  get_local_repo w d h = (t, r) →
  t = [ELocalRepo d r] ∧ local_repo w h d = r.
Proof. by intros [= <- <-]. Qed.

Lemma client_get_inv path h t r :
  client_get w path h = (t, r) → t = [EGet path r] ∧ http_get w h path = r.
Proof. by intros [= <- <-]. Qed.

Lemma client_patch_inv path json h t r :
  client_patch w path json h = (t, r) →
  t = [EPatch path json r] ∧ http_patch w h path json = r.
Proof. by intros [= <- <-]. Qed.

Lemma client_post_inv path json h t r :
  client_post w path json h = (t, r) →
  t = [EPost path json r] ∧ http_post w h path json = r.
Proof. by intros [= <- <-]. Qed.

Lemma read_text_inv file h t r :
  read_text w file h = (t, r) →
  t = [EReadText file r] ∧ file_read w h file = r.
Proof. by intros [= <- <-]. Qed.

Lemma write_text_inv file content h t r :
  write_text w file content h = (t, r) →
  t = [EWriteText file content r] ∧ file_write w h file content = r.
Proof. by intros [= <- <-]. Qed.

Lemma subprocess_run_check_inv argv d h t r :
  subprocess_run_check w argv d h = (t, r) →
  ∃ ans, t = [ERun argv d ans] ∧ run w h argv d = ans ∧
         match r with
         | Ok _ => ans = Ok 0
         | Raise e => failed (ERun argv d ans) = Some e
         end.
Proof.
  unfold subprocess_run_check. cbv zeta. intros [= <- <-].
  eexists; split; [done|]. split; [done|].
  destruct (run w h argv d) as [code|e]; simpl; [|done].
  destruct (Z.eqb code 0) eqn:E; [|done].
  apply Z.eqb_eq in E. by subst.
Qed.

Lemma lift_inv {A} (x : Res A) (h t : list Event) r :
  lift x h = (t, r) → t = [] ∧ r = x.
Proof. by intros [= <- <-]. Qed.

Lemma ret_inv {A} (x : A) (h t : list Event) r :
  ret x h = (t, r) → t = [] ∧ r = Ok x.
Proof. by intros [= <- <-]. Qed.

End Blocks.

Lemma runs_app t1 t2 : runs (t1 ++ t2) = runs t1 ++ runs t2.
Proof. apply omap_app. Qed.

(** Everything the rename block does, from a run of it. *)
Lemma rename_labels_inv w prefix repo h t r :
  rename_labels w prefix repo h = (t, r) →
  patches t `prefix_of` map (rename_request prefix (GHRepo_str repo))
                            (map fst LABELS) ∧
  (r = Ok tt →
   patches t = map (rename_request prefix (GHRepo_str repo)) (map fst LABELS)) ∧
  posts t = [] ∧ gets t = [] ∧ local_repos t = [] ∧ reads t = [] ∧
  writes t = [] ∧ runs t = [].
Proof.
  intros Hrun.
  pose proof (rename_labels_patches w prefix repo h) as Hp.
  cbv zeta in Hp. rewrite Hrun in Hp. destruct Hp as [Hp1 Hp2].
  split; [done|]. split; [done|].
  replace t with (rename_labels w prefix repo h).1 by (by rewrite Hrun).
  unfold rename_labels.
  repeat split; apply omap_nil_Forall; all_events.
Qed.

(** Symbolic execution of a run given as a hypothesis: sequencing is
    split into its two outcomes and each primitive is replaced by the
    event it leaves and the answer it got. *)
Ltac inv_run :=
  repeat match goal with
  | H : bind _ _ _ = (_, _) |- _ =>
      apply bind_inv in H as [(? & H & ?)|(? & ? & ? & H & ? & ?)]
  | H : log_info _ _ _ = (_, _) |- _ => apply log_info_inv in H as [? ?]
  | H : get_local_repo _ _ _ = (_, _) |- _ =>
      apply get_local_repo_inv in H as [? ?]
  | H : client_get _ _ _ = (_, _) |- _ => apply client_get_inv in H as [? ?]
  | H : client_patch _ _ _ _ = (_, _) |- _ =>
      apply client_patch_inv in H as [? ?]
  | H : client_post _ _ _ _ = (_, _) |- _ =>
      apply client_post_inv in H as [? ?]
  | H : read_text _ _ _ = (_, _) |- _ => apply read_text_inv in H as [? ?]
  | H : write_text _ _ _ _ = (_, _) |- _ =>
      apply write_text_inv in H as [? ?]
  | H : subprocess_run_check _ _ _ _ = (_, _) |- _ =>
      apply subprocess_run_check_inv in H as (? & ? & ? & ?)
  | H : lift _ _ = (_, _) |- _ => apply lift_inv in H as [? ?]
  | H : ret _ _ = (_, _) |- _ => apply ret_inv in H as [? ?]
  | H : (let '(_, _) := ?x in _) _ = (_, _) |- _ => destruct x
  | H : Ok _ = Ok _ |- _ => injection H as ?
  | H : Ok _ = Raise _ |- _ => discriminate H
  | H : Raise _ = Ok _ |- _ => discriminate H
  | H : (_, _) = (_, _) |- _ => injection H as ? ?
  | _ => progress subst
  end.

Lemma resolve_target_inv w repo_data repo h t r :
  resolve_target w repo_data repo h = (t, r) →
  r = match parent repo_data with
      | Some p =>
          match GHRepo_parse w (full_name p) with
          | Ok target => Ok (Some (owner_login repo_data), target)
          | Raise e => Raise e
          end
      | None => Ok (None, repo)
      end ∧
  patches t = [] ∧ posts t = [] ∧ gets t = [] ∧ local_repos t = [] ∧
  reads t = [] ∧ writes t = [] ∧ runs t = [].
Proof.
  rewrite resolve_target_run. intros Hrun.
  destruct (parent repo_data) as [p|]; [|by inv_run].
  destruct (GHRepo_parse w (full_name p)); by inv_run.
Qed.

Lemma create_pr_inv w title body defbranch head_owner repo h t r :
  create_pr w title body defbranch head_owner repo h = (t, r) →
  posts t = [pr_request title body defbranch head_owner (GHRepo_str repo)] ∧
  patches t = [] ∧ gets t = [] ∧ local_repos t = [] ∧ reads t = [] ∧
  writes t = [].
Proof. unfold create_pr. intros Hrun. by inv_run. Qed.

(** The edit of [.autorc]: the file is written at most once, and what is
    written is the dump of the configuration read, with ["labels"] set. *)
Lemma update_autorc_inv w title defbranch d h t r :
  update_autorc w title defbranch d h = (t, r) →
  patches t = [] ∧ posts t = [] ∧ gets t = [] ∧ local_repos t = [] ∧
  (r = Ok tt → runs t ≠ []) ∧
  (writes t = [] ∧ (∃ e, r = Raise e) ∨
   ∃ text cfg cfg',
     reads t = [(joinpath w d ".autorc", Ok text)] ∧
     json_loads w text = Ok cfg ∧
     setitem cfg "labels" autorc_labels = Ok cfg' ∧
     writes t = [(joinpath w d ".autorc", json_dumps w cfg' +:+ newline)]).
Proof.
  unfold update_autorc. cbv zeta. intros Hrun. inv_run.
  all: repeat split; try done.
  all: try (left; split; [done|]; by eexists).
  all: right; eexists _, _, _; repeat split; done.
Qed.

(** Applies the inversion lemma of each block of [process_dir] left in
    the context. *)
Ltac inv_blocks :=
  repeat match goal with
  | H : resolve_target _ _ _ _ = (_, _) |- _ =>
      apply resolve_target_inv in H as (? & ? & ? & ? & ? & ? & ? & ?)
  | H : rename_labels _ _ _ _ = (_, _) |- _ =>
      apply rename_labels_inv in H as (? & ? & ? & ? & ? & ? & ? & ?)
  | H : update_autorc _ _ _ _ _ = (_, _) |- _ =>
      apply update_autorc_inv in H as (? & ? & ? & ? & ? & ?)
  | H : create_pr _ _ _ _ _ _ _ = (_, _) |- _ =>
      apply create_pr_inv in H as (? & ? & ? & ? & ? & ?)
  end.

(** Pushes the projections through the trace and uses what is known of
    each block. *)
Ltac simpl_trace :=
  rewrite ?patches_app, ?posts_app, ?gets_app, ?local_repos_app, ?reads_app,
    ?writes_app, ?runs_app;
  repeat match goal with
  | H : patches ?x = _ |- context [patches ?x] => is_var x; rewrite H
  | H : posts ?x = _ |- context [posts ?x] => is_var x; rewrite H
  | H : gets ?x = _ |- context [gets ?x] => is_var x; rewrite H
  | H : local_repos ?x = _ |- context [local_repos ?x] => is_var x; rewrite H
  | H : reads ?x = _ |- context [reads ?x] => is_var x; rewrite H
  | H : writes ?x = _ |- context [writes ?x] => is_var x; rewrite H
  | H : runs ?x = _ |- context [runs ?x] => is_var x; rewrite H
  end.

Lemma resolved_spec w (rd : RepoData) (repo : GHRepo) o g :
  Ok (o, g) =
    match parent rd with
    | Some p =>
        match GHRepo_parse w (full_name p) with
        | Ok target => Ok (Some (owner_login rd), target)
        | Raise e => Raise e
        end
    | None => Ok (None, repo)
    end →
  match parent rd with
  | Some p => GHRepo_parse w (full_name p) = Ok g ∧ o = Some (owner_login rd)
  | None => g = repo ∧ o = None
  end.
Proof.
  destruct (parent rd) as [p|]; [destruct (GHRepo_parse w (full_name p))|];
    by intros [= -> ->].
Qed.

Lemma process_dir_inv w prefix title body d h t r :
  process_dir w prefix title body d h = (t, r) →
  ∃ ans, local_repos t = [(d, ans)] ∧
  match ans with
  | Ok repo => ∃ ans', gets t = [("/repo/" +:+ GHRepo_str repo, ans')]
  | Raise _ => gets t = []
  end ∧
  ((∃ e, r = Raise e) ∧
   patches t = [] ∧ posts t = [] ∧ writes t = [] ∧ runs t = []
   ∨
   ∃ repo rd head_owner target,
     ans = Ok repo ∧
     gets t = [("/repo/" +:+ GHRepo_str repo, Ok rd)] ∧
     match parent rd with
     | Some p => GHRepo_parse w (full_name p) = Ok target ∧
                 head_owner = Some (owner_login rd)
     | None => target = repo ∧ head_owner = None
     end ∧
     patches t `prefix_of` map (rename_request prefix (GHRepo_str target))
                               (map fst LABELS) ∧
     (r = Ok tt ∨ runs t ≠ [] →
      patches t = map (rename_request prefix (GHRepo_str target))
                      (map fst LABELS)) ∧
     (posts t = [] ∨
      posts t = [pr_request title body (default_branch rd) head_owner
                            (GHRepo_str target)]) ∧
     (r = Ok tt →
      posts t = [pr_request title body (default_branch rd) head_owner
                            (GHRepo_str target)]) ∧
     (writes t = [] ∨
      ∃ text cfg cfg',
        reads t = [(joinpath w d ".autorc", Ok text)] ∧
        json_loads w text = Ok cfg ∧
        setitem cfg "labels" autorc_labels = Ok cfg' ∧
        writes t = [(joinpath w d ".autorc", json_dumps w cfg' +:+ newline)]) ∧
     (r = Ok tt → writes t ≠ [])).
Proof.
  intros Hrun. unfold process_dir in Hrun. cbv zeta in Hrun.
  inv_run; inv_blocks.
  all: eexists; (split; [simpl_trace; reflexivity|]).
  all: split; [simpl_trace; try done; by eexists|].
  1-3: left; simpl_trace; simpl; by eauto 10.
  all: right.
  all: match goal with
       | H : Ok (?o, ?g) = match parent ?rd with _ => _ end,
         H' : local_repo _ _ _ = Ok ?repo |- _ =>
           exists repo, rd, o, g; apply resolved_spec in H
       end.
  all: simpl_trace; simpl; rewrite ?app_nil_r.
  all: repeat match goal with x : unit |- _ => destruct x end.
  all: split_and!; try done; eauto.
  all: try (intros _; match goal with H : _ |- _ => by apply H end).
  all: try (by intros [[=]|[]]).
  all: try (match goal with H : _ ∨ _ |- _ => destruct H as [[? ?]|?]; by eauto end).
  intros _.
  match goal with
  | H : _ ∨ _ |- _ => destruct H as [[_ [e [=]]]|(? & ? & ? & _ & _ & _ & Hw)]
  end.
  by rewrite Hw.
Qed.

(** C6. In a run of [main] over any list of directories, a failed call (a
    request that raised, an HTTP error of a label rename or of the
    pull-request creation among them, or a [git] subprocess that exited
    with a non-zero status) is the last event of the trace, and the run
    ends with its exception: no later step of that directory and no later
    directory is processed. *)
Theorem C6_failure_is_fatal w prefix dirpath h t r t1 ev t2 e :
  main w prefix dirpath h = (t, r) →
  t = t1 ++ ev :: t2 →
  failed ev = Some e →
  t2 = [] ∧ r = Raise e.
Proof.
  intros Hrun Ht Hev.
  pose proof (fail_stop_main w prefix dirpath h t1 ev t2 e) as H.
  rewrite Hrun in H. by apply H.
Qed.

(** *** Shared facts for the claims on one directory *)

Lemma prefix_of_In {A} (l1 l2 : list A) x :
  l1 `prefix_of` l2 → In x l1 → In x l2.
Proof. intros [k ->] Hin. apply in_or_app. by left. Qed.

Lemma repos_prefix s : String.prefix "/repos/" ("/repos/" +:+ s) = true.
Proof. by destruct s. Qed.

Lemma in_rename_requests prefix target p j :
  In (p, j) (map (rename_request prefix target) (map fst LABELS)) →
  ∃ label,
    In label (map fst LABELS) ∧ label ≠ "release" ∧
    (p, j) = rename_request prefix target label ∧
    String.prefix "/repos/" p = true.
Proof.
  intros Hin. apply in_map_iff in Hin as (label & Heq & Hl).
  exists label. split; [done|]. split.
  - intros ->. simpl in Hl.
    repeat (destruct Hl as [Hl|Hl]; [discriminate Hl|]). done.
  - split; [done|]. unfold rename_request in Heq. injection Heq as <- _.
    apply repos_prefix.
Qed.

Lemma dict_get_set_eq k v d : dict_get k (dict_set k v d) = Some v.
Proof.
  induction d as [|[k' v'] d IH]; simpl.
  - by rewrite String.eqb_refl.
  - destruct (String.eqb k' k) eqn:E; simpl; by rewrite E.
Qed.

Lemma dict_get_set_ne k k' v d :
  k' ≠ k → dict_get k' (dict_set k v d) = dict_get k' d.
Proof.
  intros Hne. induction d as [|[k0 v0] d IH]; simpl.
  - destruct (String.eqb_spec k k'); [by subst|done].
  - destruct (String.eqb_spec k0 k) as [->|]; simpl.
    + destruct (String.eqb_spec k k'); [by subst|done].
    + by rewrite IH.
Qed.

(** What is written to [.autorc], from a run on one directory. *)
Lemma process_dir_writes w prefix title body d h t r :
  process_dir w prefix title body d h = (t, r) →
  (r = Ok tt → writes t ≠ []) ∧
  ∀ f c, In (f, c) (writes t) →
    ∃ text kvs,
      f = joinpath w d ".autorc" ∧
      reads t = [(f, Ok text)] ∧
      json_loads w text = Ok (JObj kvs) ∧
      c = json_dumps w (JObj (dict_set "labels" autorc_labels kvs)) +:+ newline.
Proof.
  intros Hrun.
  destruct (process_dir_inv _ _ _ _ _ _ _ _ Hrun) as (ans & _ & _ & Hc).
  destruct Hc as [([e ->] & _ & _ & Hw & _)|Hc].
  { split; [done|]. rewrite Hw. by intros f c []. }
  destruct Hc as (repo & rd & ho & g & _ & _ & _ & _ & _ & _ & _ & Hw & Hne).
  split; [done|]. intros f c Hin.
  destruct Hw as [Hw|(text & cfg & cfg' & Hr & Hl & Hs & Hw)].
  { rewrite Hw in Hin. destruct Hin. }
  rewrite Hw in Hin. destruct Hin as [[= <- <-]|[]].
  destruct cfg; try discriminate Hs. injection Hs as <-.
  by exists text, members.
Qed.

(** The target the code resolves and the head it submits are the ones the
    specification names, when [GHRepo.parse] and [str] agree on the
    parent's full name. *)
Lemma resolved_is_spec w (rd : RepoData) (repo g : GHRepo) ho :
  (∀ P g, parent rd = Some P → GHRepo_parse w (full_name P) = Ok g →
          GHRepo_str g = full_name P) →
  match parent rd with
  | Some p => GHRepo_parse w (full_name p) = Ok g ∧ ho = Some (owner_login rd)
  | None => g = repo ∧ ho = None
  end →
  GHRepo_str g = spec_target rd repo ∧ pr_head ho = spec_head rd.
Proof.
  unfold spec_target, spec_head. intros Hparse.
  destruct (parent rd) as [P|] eqn:E.
  - intros [Hg ->]. split; [by eapply Hparse|done].
  - by intros [-> ->].
Qed.

(** *** The claims on one directory *)

(** C10. In a run on a directory whose clone resolves to the repository
    [repo], the one metadata fetch goes to the path ["/repo/"] followed by
    [owner/name]; that path does not begin with ["/repos/"], while the
    path of every rename request and of every pull-request submission of
    the run does. *)
Theorem C10_metadata_path_singular w prefix title body d h t r :
  process_dir w prefix title body d h = (t, r) →
  ∀ repo, In (d, Ok repo) (local_repos t) →
    (∃ ans, gets t = [("/repo/" +:+ owner repo +:+ "/" +:+ name repo, ans)]) ∧
    String.prefix "/repos/" ("/repo/" +:+ owner repo +:+ "/" +:+ name repo)
      = false ∧
    (∀ p j, In (p, j) (patches t ++ posts t) →
            String.prefix "/repos/" p = true).
Proof.
  intros Hrun repo Hin.
  destruct (process_dir_inv _ _ _ _ _ _ _ _ Hrun) as (ans & Hl & Hg & Hc).
  rewrite Hl in Hin. destruct Hin as [[= ->]|[]].
  split; [exact Hg|]. split; [reflexivity|].
  intros p j Hpj. apply in_app_or in Hpj.
  destruct Hc as [(_ & Hp & Hq & _)|Hc].
  { rewrite Hp, Hq in Hpj. by destruct Hpj. }
  destruct Hc as (repo' & rd & ho & g & _ & _ & _ & Hp & _ & Hq & _).
  destruct Hpj as [Hpj|Hpj].
  - apply (prefix_of_In _ _ _ Hp) in Hpj.
    by apply in_rename_requests in Hpj as (_ & _ & _ & _ & ?).
  - destruct Hq as [Hq|Hq]; rewrite Hq in Hpj; [by destruct Hpj|].
    destruct Hpj as [[= <- _]|[]]. apply repos_prefix.
Qed.

(** C5. In a run on one directory there is a repository [target] such
    that the rename requests issued are, in order, an initial part of the
    eight requests that rename ["major"], ["minor"], ["patch"],
    ["dependencies"], ["documentation"], ["internal"], ["performance"]
    and ["tests"] on [target] to the prefix followed by the old name; they
    are exactly these eight as soon as the run got past the renames (it
    ended normally, or reached a [git] call); and no request renames
    ["release"]. *)
Theorem C5_eight_renames w prefix title body d h t r :
  process_dir w prefix title body d h = (t, r) →
  ∃ target,
    let eight :=
      map (λ label, ("/repos/" +:+ target +:+ "/labels/" +:+ label,
                     JObj [("new_name", JStr (prefix +:+ label))]))
          ["major"; "minor"; "patch"; "dependencies"; "documentation";
           "internal"; "performance"; "tests"] in
    patches t `prefix_of` eight ∧
    (r = Ok tt ∨ runs t ≠ [] → patches t = eight ∧ length (patches t) = 8%nat) ∧
    (∀ p j, In (p, j) (patches t) →
       ∃ label, label ≠ "release" ∧
         p = "/repos/" +:+ target +:+ "/labels/" +:+ label ∧
         j = JObj [("new_name", JStr (prefix +:+ label))]).
Proof.
  intros Hrun.
  destruct (process_dir_inv _ _ _ _ _ _ _ _ Hrun) as (ans & _ & _ & Hc).
  destruct Hc as [([e ->] & Hp & _ & _ & Hr)|Hc].
  { exists "". cbv zeta. rewrite Hp, Hr. split; [apply prefix_nil|].
    split; [by intros [|]|by intros p j []]. }
  destruct Hc as (repo & rd & ho & g & _ & _ & _ & Hp & Hall & _).
  exists (GHRepo_str g). cbv zeta. split; [exact Hp|]. split.
  - intros Hdone. rewrite (Hall Hdone). by split.
  - intros p j Hpj. apply (prefix_of_In _ _ _ Hp) in Hpj.
    apply in_rename_requests in Hpj as (label & _ & Hne & Heq & _).
    exists label. split; [done|]. by injection Heq as -> ->.
Qed.

(** C2. In a run on a directory whose clone resolves to [repo] and whose
    metadata fetch answered [rd], where [GHRepo.parse] followed by [str]
    gives back the parent's full name: the rename requests are an initial
    part of the eight renames on the target the specification names (the
    parent's full name P for a fork, [repo] itself otherwise), all eight
    when the run ends normally; every pull request is submitted to that
    target with the head the specification names (the owner login L
    followed by [":auto-prefix-labels"] for a fork, the bare
    ["auto-prefix-labels"] otherwise); and a run that ends normally has
    submitted exactly one. *)
Theorem C2_fork_redirect w prefix title body d h t r repo path rd :
  process_dir w prefix title body d h = (t, r) →
  In (d, Ok repo) (local_repos t) →
  In (path, Ok rd) (gets t) →
  (∀ P g, parent rd = Some P → GHRepo_parse w (full_name P) = Ok g →
          GHRepo_str g = full_name P) →
  patches t `prefix_of`
    map (rename_request prefix (spec_target rd repo)) (map fst LABELS) ∧
  (r = Ok tt →
   patches t =
     map (rename_request prefix (spec_target rd repo)) (map fst LABELS)) ∧
  (∀ p j, In (p, j) (posts t) →
     p = "/repos/" +:+ spec_target rd repo +:+ "/pulls" ∧
     json_get "head" j = Some (JStr (spec_head rd))) ∧
  (r = Ok tt →
   ∃ j, posts t = [("/repos/" +:+ spec_target rd repo +:+ "/pulls", j)]).
Proof.
  intros Hrun Hrepo Hrd Hparse.
  destruct (process_dir_inv _ _ _ _ _ _ _ _ Hrun) as (ans & Hl & Hg & Hc).
  rewrite Hl in Hrepo. destruct Hrepo as [[= ->]|[]].
  destruct Hc as [([e ->] & Hp & Hq & _)|Hc].
  { rewrite Hp, Hq. split; [apply prefix_nil|]. split; [done|].
    split; [by intros p j []|done]. }
  destruct Hc as (repo' & rd' & ho & g & [= <-] & Hgets & Hres & Hp & Hall
                  & Hq & Hq1 & _).
  rewrite Hgets in Hrd. destruct Hrd as [[= _ <-]|[]].
  destruct (resolved_is_spec _ _ _ _ _ Hparse Hres) as [Htarget Hhead].
  rewrite Htarget in Hp, Hall, Hq, Hq1.
  split; [exact Hp|]. split; [by intros ?; apply Hall; left|]. split.
  - intros p j Hpj.
    destruct Hq as [Hq|Hq]; rewrite Hq in Hpj; [by destruct Hpj|].
    destruct Hpj as [[= <- <-]|[]]. split; [done|]. simpl. by rewrite Hhead.
  - intros Hok. rewrite (Hq1 Hok). by eexists.
Qed.

(** C7. In a run on one directory, whatever is written is the dump (plus
    a newline) of a JSON object that has, under every key other than
    ["labels"], the value the object read from [.autorc] has under that
    key (or is without that key as well), and has the new array under
    ["labels"]; a run that ends normally has written the file. *)
Theorem C7_other_keys_kept w prefix title body d h t r :
  process_dir w prefix title body d h = (t, r) →
  (r = Ok tt → writes t ≠ []) ∧
  ∀ f c, In (f, c) (writes t) →
    ∃ text kvs kvs',
      reads t = [(f, Ok text)] ∧
      json_loads w text = Ok (JObj kvs) ∧
      c = json_dumps w (JObj kvs') +:+ newline ∧
      (∀ k, k ≠ "labels" → dict_get k kvs' = dict_get k kvs) ∧
      dict_get "labels" kvs' = Some autorc_labels.
Proof.
  intros Hrun. destruct (process_dir_writes _ _ _ _ _ _ _ _ Hrun) as [Hne Hw].
  split; [exact Hne|]. intros f c Hin.
  destruct (Hw f c Hin) as (text & kvs & _ & Hr & Hl & ->).
  exists text, kvs, (dict_set "labels" autorc_labels kvs).
  split; [done|]. split; [done|]. split; [done|]. split.
  - intros k Hk. by apply dict_get_set_ne.
  - apply dict_get_set_eq.
Qed.

(** C1. In a run on one directory with any prefix, the object written to
    [.autorc] has under ["labels"] an array of eight entries whose names
    are the names of the table as they are, without the prefix, each with
    its release type. *)
Theorem C1_labels_written_unprefixed w prefix title body d h t r f c :
  process_dir w prefix title body d h = (t, r) →
  In (f, c) (writes t) →
  ∃ cfg,
    c = json_dumps w cfg +:+ newline ∧
    json_get "labels" cfg = Some (JArr
      [ JObj [("name", JStr "major"); ("releaseType", JStr "major")];
        JObj [("name", JStr "minor"); ("releaseType", JStr "minor")];
        JObj [("name", JStr "patch"); ("releaseType", JStr "patch")];
        JObj [("name", JStr "dependencies"); ("releaseType", JStr "none")];
        JObj [("name", JStr "documentation"); ("releaseType", JStr "none")];
        JObj [("name", JStr "internal"); ("releaseType", JStr "none")];
        JObj [("name", JStr "performance"); ("releaseType", JStr "none")];
        JObj [("name", JStr "tests"); ("releaseType", JStr "none")] ]).
Proof.
  intros Hrun Hin.
  destruct (process_dir_writes _ _ _ _ _ _ _ _ Hrun) as [_ Hw].
  destruct (Hw f c Hin) as (text & kvs & _ & _ & _ & ->).
  eexists. split; [reflexivity|]. simpl. apply dict_get_set_eq.
Qed.

(** *** The claims at the example environments *)

(** C6 where [git checkout] fails in the first of two directories. *)
Lemma C6_failure_is_fatal_witness :
  main gitfail_world "x-" ["clone"; "other"] []
    = (gitfail_before ++ gitfail_event :: [], Raise (CalledProcessError 1)) ∧
  failed gitfail_event = Some (CalledProcessError 1) ∧
  (@nil Event = [] ∧
   @Raise unit (CalledProcessError 1) = Raise (CalledProcessError 1)).
Proof.
  split; [vm_compute; reflexivity|]. split; [reflexivity|].
  apply (C6_failure_is_fatal gitfail_world "x-" ["clone"; "other"] []
           (gitfail_before ++ gitfail_event :: [])
           (Raise (CalledProcessError 1))
           gitfail_before gitfail_event [] (CalledProcessError 1)).
  - vm_compute; reflexivity.
  - reflexivity.
  - reflexivity.
Defined.

(** C10 on the fork. *)
Lemma C10_metadata_path_singular_witness :
  process_dir fork_world "x-" (pr_title fork_world "x-")
              (pr_body fork_world "x-") "clone" [] = (fork_trace, Ok tt) ∧
  In ("clone", Ok alice_base) (local_repos fork_trace) ∧
  (∃ ans, gets fork_trace = [("/repo/alice/base", ans)]) ∧
  String.prefix "/repos/" "/repo/alice/base" = false ∧
  (∀ p j, In (p, j) (patches fork_trace ++ posts fork_trace) →
          String.prefix "/repos/" p = true).
Proof.
  split; [vm_compute; reflexivity|]. split; [vm_compute; by left|].
  apply (C10_metadata_path_singular fork_world "x-" (pr_title fork_world "x-")
           (pr_body fork_world "x-") "clone" [] fork_trace (Ok tt))
    with (repo := alice_base).
  - vm_compute; reflexivity.
  - vm_compute; by left.
Defined.

(** C5 on the fork: the eight renames, on [acme/base]. *)
Lemma C5_eight_renames_witness :
  process_dir fork_world "x-" (pr_title fork_world "x-")
              (pr_body fork_world "x-") "clone" [] = (fork_trace, Ok tt) ∧
  ∃ target,
    let eight :=
      map (λ label, ("/repos/" +:+ target +:+ "/labels/" +:+ label,
                     JObj [("new_name", JStr ("x-" +:+ label))]))
          ["major"; "minor"; "patch"; "dependencies"; "documentation";
           "internal"; "performance"; "tests"] in
    patches fork_trace `prefix_of` eight ∧
    (@Ok unit tt = Ok tt ∨ runs fork_trace ≠ [] →
     patches fork_trace = eight ∧ length (patches fork_trace) = 8%nat) ∧
    (∀ p j, In (p, j) (patches fork_trace) →
       ∃ label, label ≠ "release" ∧
         p = "/repos/" +:+ target +:+ "/labels/" +:+ label ∧
         j = JObj [("new_name", JStr ("x-" +:+ label))]).
Proof.
  split; [vm_compute; reflexivity|].
  apply (C5_eight_renames fork_world "x-" (pr_title fork_world "x-")
           (pr_body fork_world "x-") "clone" [] fork_trace (Ok tt)).
  vm_compute; reflexivity.
Defined.

(** C2 on the fork: the renames and the pull request go to [acme/base],
    and the head is [alice:auto-prefix-labels]. *)
Lemma C2_fork_redirect_witness :
  process_dir fork_world "x-" (pr_title fork_world "x-")
              (pr_body fork_world "x-") "clone" [] = (fork_trace, Ok tt) ∧
  In ("clone", Ok alice_base) (local_repos fork_trace) ∧
  In ("/repo/alice/base", Ok fork_data) (gets fork_trace) ∧
  (∀ P g, parent fork_data = Some P →
          GHRepo_parse fork_world (full_name P) = Ok g →
          GHRepo_str g = full_name P) ∧
  patches fork_trace `prefix_of`
    map (rename_request "x-" "acme/base") (map fst LABELS) ∧
  (@Ok unit tt = Ok tt →
   patches fork_trace =
     map (rename_request "x-" "acme/base") (map fst LABELS)) ∧
  (∀ p j, In (p, j) (posts fork_trace) →
     p = "/repos/acme/base/pulls" ∧
     json_get "head" j = Some (JStr "alice:auto-prefix-labels")) ∧
  (@Ok unit tt = Ok tt →
   ∃ j, posts fork_trace = [("/repos/acme/base/pulls", j)]).
Proof.
  assert (Hparse : ∀ P g, parent fork_data = Some P →
            GHRepo_parse fork_world (full_name P) = Ok g →
            GHRepo_str g = full_name P).
  { intros P g [= <-]. simpl. by intros [= <-]. }
  split; [vm_compute; reflexivity|]. split; [vm_compute; by left|].
  split; [vm_compute; by left|]. split; [exact Hparse|].
  apply (C2_fork_redirect fork_world "x-" (pr_title fork_world "x-")
           (pr_body fork_world "x-") "clone" [] fork_trace (Ok tt)
           alice_base "/repo/alice/base" fork_data).
  - vm_compute; reflexivity.
  - vm_compute; by left.
  - vm_compute; by left.
  - exact Hparse.
Defined.

(** C7 on the fork: [baseBranch] and [plugins] are kept. *)
Lemma C7_other_keys_kept_witness :
  process_dir fork_world "x-" (pr_title fork_world "x-")
              (pr_body fork_world "x-") "clone" [] = (fork_trace, Ok tt) ∧
  (@Ok unit tt = Ok tt → writes fork_trace ≠ []) ∧
  ∀ f c, In (f, c) (writes fork_trace) →
    ∃ text kvs kvs',
      reads fork_trace = [(f, Ok text)] ∧
      json_loads fork_world text = Ok (JObj kvs) ∧
      c = json_dumps fork_world (JObj kvs') +:+ newline ∧
      (∀ k, k ≠ "labels" → dict_get k kvs' = dict_get k kvs) ∧
      dict_get "labels" kvs' = Some autorc_labels.
Proof.
  split; [vm_compute; reflexivity|].
  apply (C7_other_keys_kept fork_world "x-" (pr_title fork_world "x-")
           (pr_body fork_world "x-") "clone" [] fork_trace (Ok tt)).
  vm_compute; reflexivity.
Defined.

(** C1 on the fork, with the prefix ["x-"]: the first name written is
    ["major"]. *)
Lemma C1_labels_written_unprefixed_witness :
  process_dir fork_world "x-" (pr_title fork_world "x-")
              (pr_body fork_world "x-") "clone" [] = (fork_trace, Ok tt) ∧
  In ("clone/.autorc", compact_dumps fork_config_written +:+ newline)
     (writes fork_trace) ∧
  ∃ cfg,
    compact_dumps fork_config_written +:+ newline
      = json_dumps fork_world cfg +:+ newline ∧
    json_get "labels" cfg = Some (JArr
      [ JObj [("name", JStr "major"); ("releaseType", JStr "major")];
        JObj [("name", JStr "minor"); ("releaseType", JStr "minor")];
        JObj [("name", JStr "patch"); ("releaseType", JStr "patch")];
        JObj [("name", JStr "dependencies"); ("releaseType", JStr "none")];
        JObj [("name", JStr "documentation"); ("releaseType", JStr "none")];
        JObj [("name", JStr "internal"); ("releaseType", JStr "none")];
        JObj [("name", JStr "performance"); ("releaseType", JStr "none")];
        JObj [("name", JStr "tests"); ("releaseType", JStr "none")] ]).
Proof.
  split; [vm_compute; reflexivity|]. split; [vm_compute; by left|].
  apply (C1_labels_written_unprefixed fork_world "x-"
           (pr_title fork_world "x-") (pr_body fork_world "x-") "clone" []
           fork_trace (Ok tt) "clone/.autorc").
  - vm_compute; reflexivity.
  - vm_compute; by left.
Defined.

(** *** The order of the calls on one directory *)

Lemma steps_app t1 t2 : steps (t1 ++ t2) = steps t1 ++ steps t2.
Proof. apply omap_app. Qed.

Lemma requests_app t1 t2 : requests (t1 ++ t2) = requests t1 ++ requests t2.
Proof. apply omap_app. Qed.

Lemma only_renames_calls t :
  only_renames t →
  steps t = map (λ _, SRename) (patches t) ∧
  requests t = map (λ pj, RPatch pj.1 pj.2) (patches t).
Proof.
  induction 1 as [|ev t Hev _ [IH1 IH2]]; [done|].
  destruct ev; try done; simpl; by rewrite ?IH1, ?IH2.
Qed.

Lemma prefix_of_map {A B} (f : A → B) (l1 l2 : list A) :
  l1 `prefix_of` l2 → map f l1 `prefix_of` map f l2.
Proof. intros [k ->]. rewrite map_app. by apply prefix_app_r. Qed.

(** The rename block by its calls. *)
Lemma rename_labels_calls w prefix repo h t r :
  rename_labels w prefix repo h = (t, r) →
  let renames :=
    map (λ label, RPatch ("/repos/" +:+ GHRepo_str repo +:+ "/labels/" +:+ label)
                         (JObj [("new_name", JStr (prefix +:+ label))]))
        (map fst LABELS) in
  steps t `prefix_of` replicate 8 SRename ∧
  requests t `prefix_of` renames ∧
  (r = Ok tt → steps t = replicate 8 SRename ∧ requests t = renames).
Proof.
  intros Hrun renames.
  assert (Honly : only_renames t).
  { replace t with (rename_labels w prefix repo h).1 by (by rewrite Hrun).
    unfold rename_labels, only_renames. all_events. }
  destruct (only_renames_calls t Honly) as [Hs Hq].
  apply rename_labels_inv in Hrun as (Hp & Hall & _).
  rewrite Hs, Hq. split; [|split].
  - by apply (prefix_of_map (λ _, SRename)) in Hp.
  - by apply (prefix_of_map (λ pj, RPatch pj.1 pj.2)) in Hp.
  - intros Hok. by rewrite (Hall Hok).
Qed.

Lemma resolve_target_calls w repo_data repo h t r :
  resolve_target w repo_data repo h = (t, r) →
  steps t = [] ∧ requests t = [].
Proof.
  rewrite resolve_target_run. intros Hrun.
  destruct (parent repo_data) as [p|]; [|by inv_run].
  destruct (GHRepo_parse w (full_name p)); by inv_run.
Qed.

(** Applies the lemmas on the calls of the two blocks that the symbolic
    execution leaves whole. *)
Ltac inv_calls :=
  repeat match goal with
  | H : resolve_target _ _ _ _ = (_, _) |- _ =>
      let Hres := fresh "Hres" in
      pose proof (resolve_target_calls _ _ _ _ _ _ H) as (? & ?);
      apply resolve_target_inv in H as (Hres & ? & ? & ? & ? & ? & ? & ?)
  | H : rename_labels _ _ _ _ = (_, _) |- _ =>
      pose proof (rename_labels_calls _ _ _ _ _ _ H) as (? & ? & ?);
      apply rename_labels_inv in H as (? & ? & ? & ? & ? & ? & ? & ?)
  end.

Ltac simpl_calls :=
  rewrite ?steps_app, ?requests_app;
  repeat match goal with
  | H : steps ?x = _ |- context [steps ?x] => is_var x; rewrite H
  | H : requests ?x = _ |- context [requests ?x] => is_var x; rewrite H
  end.

(** Uses what is known of the rename block once it went through. *)
Ltac use_renames :=
  repeat match goal with
  | x : unit |- _ => destruct x
  | H : Ok () = Ok () → _ ∧ _ |- _ => destruct (H eq_refl) as [? ?]; clear H
  | H : Ok () = Ok () → _ |- _ => specialize (H eq_refl)
  end.

Ltac finish_calls := use_renames; simpl_calls; simpl.

(** The calls of a run on one directory, by kind. *)
Lemma process_dir_steps w prefix title body d h :
  let run := process_dir w prefix title body d h in
  let sequence :=
    [ SResolve; SFetch;
      SRename; SRename; SRename; SRename; SRename; SRename; SRename; SRename;
      SGit; SRead; SWrite; SGit; SGit; SPullRequest ] in
  steps run.1 `prefix_of` sequence ∧
  (run.2 = Ok tt → steps run.1 = sequence).
Proof.
  cbv zeta. destruct (process_dir w prefix title body d h) as [t r] eqn:Hrun.
  unfold process_dir, update_autorc, create_pr in Hrun. cbv zeta in Hrun.
  inv_run; inv_calls; cbn [fst snd]; finish_calls.
  all: split; try done.
  all: first
    [ by eexists
    | apply (prefix_cons SResolve), (prefix_cons SFetch);
      by apply (prefix_app_r _ (replicate 8 SRename)
                  [SGit; SRead; SWrite; SGit; SGit; SPullRequest]) ].
Qed.

(** X8. The calls of a run on one directory are, by kind and in order, an
    initial part of: resolve the clone, fetch the metadata, rename a label
    eight times, [git], read the file, write the file, [git], [git], open
    the pull request; and they are all of these when the run ends
    normally.  So no file is written before all eight renames went
    through, and no pull request is opened before the three [git] calls. *)
Theorem X8_linear_sequence w prefix title body d h :
  let run := process_dir w prefix title body d h in
  let sequence :=
    [ SResolve; SFetch;
      SRename; SRename; SRename; SRename; SRename; SRename; SRename; SRename;
      SGit; SRead; SWrite; SGit; SGit; SPullRequest ] in
  steps run.1 `prefix_of` sequence ∧
  (run.2 = Ok tt → steps run.1 = sequence).
Proof. apply process_dir_steps. Qed.

(** X9. A run on one directory that ends normally has made exactly these
    calls, in this order: the clone [d] resolved to a repository [repo];
    the metadata of [repo] fetched; the eight renames on the target (the
    parent for a fork, [repo] otherwise); [git checkout -b
    auto-prefix-labels] from the default branch, in [d]; [d/.autorc]
    read, and written with the object read and its ["labels"] set;
    [git commit -m title .autorc] and [git push --set-upstream origin
    auto-prefix-labels], in [d]; the pull request on the target, with the
    title, the head, the default branch as base, the body and
    [maintainer_can_modify]; and none of the calls failed. *)
Theorem X9_successful_run w prefix title body d h t :
  process_dir w prefix title body d h = (t, Ok tt) →
  ∃ repo rd head_owner target text members,
    local_repos t = [(d, Ok repo)] ∧
    gets t = [("/repo/" +:+ GHRepo_str repo, Ok rd)] ∧
    match parent rd with
    | Some p => GHRepo_parse w (full_name p) = Ok target ∧
                head_owner = Some (owner_login rd)
    | None => target = repo ∧ head_owner = None
    end ∧
    reads t = [(joinpath w d ".autorc", Ok text)] ∧
    json_loads w text = Ok (JObj members) ∧
    requests t =
      [ RLocalRepo d; RGet ("/repo/" +:+ GHRepo_str repo) ] ++
      map (λ label,
             RPatch ("/repos/" +:+ GHRepo_str target +:+ "/labels/" +:+ label)
                    (JObj [("new_name", JStr (prefix +:+ label))]))
          ["major"; "minor"; "patch"; "dependencies"; "documentation";
           "internal"; "performance"; "tests"] ++
      [ RRun ["git"; "checkout"; "-b"; "auto-prefix-labels"; default_branch rd] d;
        RReadText (joinpath w d ".autorc");
        RWriteText (joinpath w d ".autorc")
          (json_dumps w (JObj (dict_set "labels" autorc_labels members))
           +:+ newline);
        RRun ["git"; "commit"; "-m"; title; ".autorc"] d;
        RRun ["git"; "push"; "--set-upstream"; "origin"; "auto-prefix-labels"] d;
        RPost ("/repos/" +:+ GHRepo_str target +:+ "/pulls")
              (JObj [ ("title", JStr title);
                      ("head", JStr (match head_owner with
                                     | Some o => o +:+ ":auto-prefix-labels"
                                     | None => "auto-prefix-labels"
                                     end));
                      ("base", JStr (default_branch rd));
                      ("body", JStr body);
                      ("maintainer_can_modify", JBool true) ]) ] ∧
    (∀ ev, In ev t → failed ev = None).
Proof.
  intros Hrun.
  assert (Hfine : ∀ ev, In ev t → failed ev = None).
  { intros ev Hin. apply in_split in Hin as (t1 & t2 & ->).
    pose proof (fail_stop_process_dir w prefix title body d h t1 ev t2) as Hfs.
    rewrite Hrun in Hfs. destruct (failed ev) as [e|]; [|done].
    by destruct (Hfs e eq_refl eq_refl) as [_ ?]. }
  revert Hfine.
  unfold process_dir, update_autorc, create_pr in Hrun. cbv zeta in Hrun.
  inv_run; inv_calls; use_renames.
  apply resolved_spec in Hres.
  match goal with
  | Hs : Ok _ = setitem ?c _ _ |- _ =>
      destruct c; try discriminate Hs; injection Hs as ->
  end.
  intros Hfine. eexists _, _, _, _, _, _.
  split; [simpl_trace; reflexivity|].
  split; [simpl_trace; reflexivity|].
  split; [exact Hres|].
  split; [simpl_trace; reflexivity|].
  split; [done|].
  split; [simpl_calls; reflexivity|exact Hfine].
Qed.

(** X10. When the text read from [.autorc] is not JSON, or is JSON but not
    an object (the docstring asks for a file that is valid JSON), the run
    on that directory ends with the exception of [json.loads], or with a
    [TypeError] from the assignment to [config["labels"]].  By then the
    eight labels are renamed and the branch is created; nothing is
    written, committed or pushed, and no pull request is opened. *)
Theorem X10_unusable_autorc w prefix title body d h t r f text :
  process_dir w prefix title body d h = (t, r) →
  In (f, Ok text) (reads t) →
  (∀ members, json_loads w text ≠ Ok (JObj members)) →
  (∃ e, r = Raise e ∧
        (json_loads w text = Raise e ∨
         ∃ cfg msg, json_loads w text = Ok cfg ∧ e = TypeError msg)) ∧
  steps t =
    [ SResolve; SFetch;
      SRename; SRename; SRename; SRename; SRename; SRename; SRename; SRename;
      SGit; SRead ] ∧
  length (patches t) = 8%nat ∧
  writes t = [] ∧
  posts t = [].
Proof.
  intros Hrun Hin Hbad. revert Hin.
  unfold process_dir, update_autorc, create_pr in Hrun. cbv zeta in Hrun.
  inv_run; inv_calls; use_renames; simpl_trace; simpl_calls; simpl;
    try (by intros []); try (by intros [[=]|[]]).
  all: intros [[= <- <-]|[]].
  all: try (exfalso;
            match goal with
            | Hl : Ok ?c = json_loads _ _, Hs : Ok _ = setitem ?c _ _ |- _ =>
                destruct c; try discriminate Hs; by eapply Hbad
            end).
  all: repeat match goal with
       | H : Raise _ = Raise _ |- _ => injection H as ?; subst
       end.
  - split; [|done]. eexists. split; [done|]. by left.
  - split; [|done]. eexists. split; [done|]. right.
    match goal with
    | Hs : Raise _ = setitem ?c _ _ |- _ =>
        destruct c; try discriminate Hs; injection Hs as ->
    end; by eexists _, _.
Qed.

(** *** The keys of the file written *)

Lemma dict_set_keys_in k v d :
  In k (map fst d) → map fst (dict_set k v d) = map fst d.
Proof.
  induction d as [|[k' v'] d IH]; simpl; [done|].
  destruct (String.eqb_spec k' k) as [->|Hne]; [done|].
  intros [Heq|Hin]; [done|]. simpl. by rewrite IH.
Qed.

Lemma dict_set_keys_new k v d :
  ¬ In k (map fst d) → map fst (dict_set k v d) = map fst d ++ [k].
Proof.
  induction d as [|[k' v'] d IH]; simpl; [done|].
  intros Hnot. destruct (String.eqb_spec k' k) as [->|Hne].
  - destruct Hnot. by left.
  - simpl. rewrite IH; [done|]. intros Hin. apply Hnot. by right.
Qed.

(** X11. The object written to [.autorc] has the keys of the object read,
    in the same order: when ["labels"] is among them it keeps its place
    (and gets the new value), otherwise it is added at the end. *)
Theorem X11_key_order_kept w prefix title body d h t r f c :
  process_dir w prefix title body d h = (t, r) →
  In (f, c) (writes t) →
  ∃ text members members',
    reads t = [(f, Ok text)] ∧
    json_loads w text = Ok (JObj members) ∧
    c = json_dumps w (JObj members') +:+ newline ∧
    (In "labels" (map fst members) → map fst members' = map fst members) ∧
    (¬ In "labels" (map fst members) →
     map fst members' = map fst members ++ ["labels"]).
Proof.
  intros Hrun Hin.
  destruct (process_dir_writes _ _ _ _ _ _ _ _ Hrun) as [_ Hw].
  destruct (Hw f c Hin) as (text & members & _ & Hr & Hl & ->).
  exists text, members, (dict_set "labels" autorc_labels members).
  split; [done|]. split; [done|]. split; [done|]. split.
  - apply dict_set_keys_in.
  - apply dict_set_keys_new.
Qed.

(** *** The run over the directories *)

Lemma main_over_dirs w prefix dirpath h :
  let dirs := match dirpath with [] => [cwd w] | _ => dirpath end in
  main w prefix dirpath h =
    match ghtoken w h with
    | Ok token =>
        let loop :=
          for_each dirs
            (process_dir w prefix (pr_title w prefix) (pr_body w prefix))
            (h ++ [EGhToken (Ok token)]) in
        (EGhToken (Ok token) :: loop.1, loop.2)
    | Raise e => ([EGhToken (Raise e)], Raise e)
    end.
Proof.
  cbv zeta. unfold main. cbv zeta.
  rewrite (bind_run _ _ h [EGhToken (ghtoken w h)] (ghtoken w h) eq_refl).
  by destruct (ghtoken w h).
Qed.





(** *** What a run touches *)

(** Reduces [Forall P (prog h).1], for a program built from the
    primitives, to [P] of each event the program can leave. *)
Ltac event_by_event :=
  repeat lazymatch goal with
  | |- Forall _ (bind _ _ _).1 => apply Forall_bind; [|intros ? ?]
  | |- Forall _ (for_each _ _ _).1 => apply Forall_for_each; intros ? ?
  | |- Forall _ (match ?x with _ => _ end _).1 => destruct x
  | |- Forall _ ((let '(_, _) := ?x in _) _).1 => destruct x
  | |- Forall _ [] => constructor
  | |- Forall _ [_] => constructor; [|constructor]
  | |- Forall _ _ => progress simpl
  end.

Lemma process_dir_footprint w prefix title body dirs d h :
  In d dirs →
  Forall (local_footprint w dirs) (process_dir w prefix title body d h).1.
Proof.
  intros Hd.
  unfold process_dir, resolve_target, rename_labels, update_autorc, create_pr.
  event_by_event; simpl; eauto 10.
Qed.

Lemma process_dir_announced w prefix title body d h :
  Forall (announced title body) (process_dir w prefix title body d h).1.
Proof.
  unfold process_dir, resolve_target, rename_labels, update_autorc, create_pr.
  event_by_event; simpl; eauto 10.
Qed.

Lemma main_events w prefix dirpath h (P : Event → Prop) :
  let dirs := match dirpath with [] => [cwd w] | _ => dirpath end in
  (∀ ans, P (EGhToken ans)) →
  (∀ d h', In d dirs →
     Forall P (process_dir w prefix (pr_title w prefix) (pr_body w prefix)
                           d h').1) →
  Forall P (main w prefix dirpath h).1.
Proof.
  cbv zeta. intros Htoken Hdir. rewrite main_over_dirs. cbv zeta.
  destruct (ghtoken w h) as [token|e]; cbn [fst].
  - constructor; [apply Htoken|].
    apply for_each_closed; [constructor| |done].
    intros t1 t2 H1 H2. apply Forall_app. by split.
  - constructor; [apply Htoken|constructor].
Qed.

(** X13. Whatever the answers, the calls the script itself makes in a run
    of [main] stay within the directories it is given (the current
    directory when none is given): every [get_local_repo] call is on one
    of them; every [subprocess.run] call is [git checkout -b
    auto-prefix-labels <branch>], [git commit -m <message> .autorc] or
    [git push --set-upstream origin auto-prefix-labels], with one of them
    as [cwd]; and every [read_text] and [write_text] call is on the
    [.autorc] of one of them.  What the library functions [get_ghtoken]
    and [get_local_repo] do inside (each is one event here) is not
    covered. *)
Theorem X13_local_footprint w prefix dirpath h ev :
  let dirs := match dirpath with [] => [cwd w] | _ => dirpath end in
  In ev (main w prefix dirpath h).1 →
  match ev with
  | ELocalRepo d _ => In d dirs
  | ERun argv cwd _ =>
      In cwd dirs ∧
      ((∃ branch,
          argv = ["git"; "checkout"; "-b"; "auto-prefix-labels"; branch]) ∨
       (∃ message, argv = ["git"; "commit"; "-m"; message; ".autorc"]) ∨
       argv = ["git"; "push"; "--set-upstream"; "origin"; "auto-prefix-labels"])
  | EReadText f _ => ∃ d, In d dirs ∧ f = joinpath w d ".autorc"
  | EWriteText f _ _ => ∃ d, In d dirs ∧ f = joinpath w d ".autorc"
  | _ => True
  end.
Proof.
  cbv zeta. intros Hin.
  pose proof (main_events w prefix dirpath h
                (local_footprint w
                   (match dirpath with [] => [cwd w] | _ => dirpath end)))
    as Hall.
  cbv zeta in Hall. rewrite Forall_forall in Hall.
  apply (Hall (λ _, I)); [|by apply list_elem_of_In].
  intros d h' Hd. by apply process_dir_footprint.
Qed.

(** X14. In a run of [main] with the prefix [prefix], every commit has
    the message [Prefix auto labels with ] followed by [repr(prefix)], and
    every pull request submitted has that same string as its title, the
    body that [main] builds from the prefix, and [maintainer_can_modify]
    set to true. *)
Theorem X14_commit_and_pull_request_text w prefix dirpath h ev :
  In ev (main w prefix dirpath h).1 →
  match ev with
  | ERun ("git" :: "commit" :: args) _ _ =>
      args = ["-m"; "Prefix auto labels with " +:+ py_repr w prefix; ".autorc"]
  | EPost _ json _ =>
      json_get "title" json
        = Some (JStr ("Prefix auto labels with " +:+ py_repr w prefix)) ∧
      json_get "body" json = Some (JStr (pr_body w prefix)) ∧
      json_get "maintainer_can_modify" json = Some (JBool true)
  | _ => True
  end.
Proof.
  intros Hin.
  pose proof (main_events w prefix dirpath h
                (announced (pr_title w prefix) (pr_body w prefix))) as Hall.
  cbv zeta in Hall. rewrite Forall_forall in Hall.
  apply (Hall (λ _, I)); [|by apply list_elem_of_In].
  intros d h' _. apply process_dir_announced.
Qed.

(** *** The properties at the example environments *)

(** X9 on the fork. *)
Lemma X9_successful_run_witness :
  process_dir fork_world "x-" (pr_title fork_world "x-")
              (pr_body fork_world "x-") "clone" [] = (fork_trace, Ok tt) ∧
  ∃ repo rd head_owner target text members,
    local_repos fork_trace = [("clone", Ok repo)] ∧
    gets fork_trace = [("/repo/" +:+ GHRepo_str repo, Ok rd)] ∧
    match parent rd with
    | Some p => GHRepo_parse fork_world (full_name p) = Ok target ∧
                head_owner = Some (owner_login rd)
    | None => target = repo ∧ head_owner = None
    end ∧
    reads fork_trace = [(joinpath fork_world "clone" ".autorc", Ok text)] ∧
    json_loads fork_world text = Ok (JObj members) ∧
    requests fork_trace =
      [ RLocalRepo "clone"; RGet ("/repo/" +:+ GHRepo_str repo) ] ++
      map (λ label,
             RPatch ("/repos/" +:+ GHRepo_str target +:+ "/labels/" +:+ label)
                    (JObj [("new_name", JStr ("x-" +:+ label))]))
          ["major"; "minor"; "patch"; "dependencies"; "documentation";
           "internal"; "performance"; "tests"] ++
      [ RRun ["git"; "checkout"; "-b"; "auto-prefix-labels"; default_branch rd]
             "clone";
        RReadText (joinpath fork_world "clone" ".autorc");
        RWriteText (joinpath fork_world "clone" ".autorc")
          (json_dumps fork_world
             (JObj (dict_set "labels" autorc_labels members))
           +:+ newline);
        RRun ["git"; "commit"; "-m"; pr_title fork_world "x-"; ".autorc"]
             "clone";
        RRun ["git"; "push"; "--set-upstream"; "origin"; "auto-prefix-labels"]
             "clone";
        RPost ("/repos/" +:+ GHRepo_str target +:+ "/pulls")
              (JObj [ ("title", JStr (pr_title fork_world "x-"));
                      ("head", JStr (match head_owner with
                                     | Some o => o +:+ ":auto-prefix-labels"
                                     | None => "auto-prefix-labels"
                                     end));
                      ("base", JStr (default_branch rd));
                      ("body", JStr (pr_body fork_world "x-"));
                      ("maintainer_can_modify", JBool true) ]) ] ∧
    (∀ ev, In ev fork_trace → failed ev = None).
Proof.
  split; [vm_compute; reflexivity|].
  apply (X9_successful_run fork_world "x-" (pr_title fork_world "x-")
           (pr_body fork_world "x-") "clone" [] fork_trace).
  vm_compute; reflexivity.
Defined.

(** X10 where [.autorc] is not JSON. *)
Lemma X10_unusable_autorc_witness :
  process_dir badjson_world "x-" (pr_title badjson_world "x-")
              (pr_body badjson_world "x-") "clone" []
    = (badjson_trace, Raise (OtherError "JSONDecodeError")) ∧
  In ("clone/.autorc", Ok "{}") (reads badjson_trace) ∧
  (∀ members, json_loads badjson_world "{}" ≠ Ok (JObj members)) ∧
  (∃ e, @Raise unit (OtherError "JSONDecodeError") = Raise e ∧
        (json_loads badjson_world "{}" = Raise e ∨
         ∃ cfg msg, json_loads badjson_world "{}" = Ok cfg ∧
                    e = TypeError msg)) ∧
  steps badjson_trace =
    [ SResolve; SFetch;
      SRename; SRename; SRename; SRename; SRename; SRename; SRename; SRename;
      SGit; SRead ] ∧
  length (patches badjson_trace) = 8%nat ∧
  writes badjson_trace = [] ∧
  posts badjson_trace = [].
Proof.
  split; [vm_compute; reflexivity|]. split; [vm_compute; by left|].
  split; [by intros members|].
  apply (X10_unusable_autorc badjson_world "x-" (pr_title badjson_world "x-")
           (pr_body badjson_world "x-") "clone" [] badjson_trace
           (Raise (OtherError "JSONDecodeError")) "clone/.autorc" "{}").
  - vm_compute; reflexivity.
  - vm_compute; by left.
  - by intros members.
Defined.

(** X11 on the fork: [baseBranch], [plugins], then [labels]. *)
Lemma X11_key_order_kept_witness :
  process_dir fork_world "x-" (pr_title fork_world "x-")
              (pr_body fork_world "x-") "clone" [] = (fork_trace, Ok tt) ∧
  In ("clone/.autorc", compact_dumps fork_config_written +:+ newline)
     (writes fork_trace) ∧
  ∃ text members members',
    reads fork_trace = [("clone/.autorc", Ok text)] ∧
    json_loads fork_world text = Ok (JObj members) ∧
    compact_dumps fork_config_written +:+ newline
      = json_dumps fork_world (JObj members') +:+ newline ∧
    (In "labels" (map fst members) → map fst members' = map fst members) ∧
    (¬ In "labels" (map fst members) →
     map fst members' = map fst members ++ ["labels"]).
Proof.
  split; [vm_compute; reflexivity|]. split; [vm_compute; by left|].
  apply (X11_key_order_kept fork_world "x-" (pr_title fork_world "x-")
           (pr_body fork_world "x-") "clone" [] fork_trace (Ok tt)).
  - vm_compute; reflexivity.
  - vm_compute; by left.
Defined.

(** X13 for the [git push] of the run of [main] on the fork. *)
Lemma X13_local_footprint_witness :
  In fork_push (main fork_world "x-" ["clone"] []).1 ∧
  In "clone" ["clone"] ∧
  ((∃ branch,
      ["git"; "push"; "--set-upstream"; "origin"; "auto-prefix-labels"]
        = ["git"; "checkout"; "-b"; "auto-prefix-labels"; branch]) ∨
   (∃ message,
      ["git"; "push"; "--set-upstream"; "origin"; "auto-prefix-labels"]
        = ["git"; "commit"; "-m"; message; ".autorc"]) ∨
   ["git"; "push"; "--set-upstream"; "origin"; "auto-prefix-labels"]
     = ["git"; "push"; "--set-upstream"; "origin"; "auto-prefix-labels"]).
Proof.
  assert (Hin : In fork_push (main fork_world "x-" ["clone"] []).1).
  { vm_compute. repeat (first [by left|right]). }
  split; [exact Hin|].
  exact (X13_local_footprint fork_world "x-" ["clone"] [] fork_push Hin).
Defined.

(** X14 for the pull request of that run. *)
Lemma X14_commit_and_pull_request_text_witness :
  In fork_post (main fork_world "x-" ["clone"] []).1 ∧
  json_get "title"
    (JObj [ ("title", JStr (pr_title fork_world "x-"));
            ("head", JStr "alice:auto-prefix-labels");
            ("base", JStr "main");
            ("body", JStr (pr_body fork_world "x-"));
            ("maintainer_can_modify", JBool true) ])
    = Some (JStr ("Prefix auto labels with " +:+ py_repr fork_world "x-")) ∧
  json_get "body"
    (JObj [ ("title", JStr (pr_title fork_world "x-"));
            ("head", JStr "alice:auto-prefix-labels");
            ("base", JStr "main");
            ("body", JStr (pr_body fork_world "x-"));
            ("maintainer_can_modify", JBool true) ])
    = Some (JStr (pr_body fork_world "x-")) ∧
  json_get "maintainer_can_modify"
    (JObj [ ("title", JStr (pr_title fork_world "x-"));
            ("head", JStr "alice:auto-prefix-labels");
            ("base", JStr "main");
            ("body", JStr (pr_body fork_world "x-"));
            ("maintainer_can_modify", JBool true) ])
    = Some (JBool true).
Proof.
  assert (Hin : In fork_post (main fork_world "x-" ["clone"] []).1).
  { vm_compute. repeat (first [by left|right]). }
  split; [exact Hin|].
  exact (X14_commit_and_pull_request_text fork_world "x-" ["clone"] []
           fork_post Hin).
Defined.

(** *** When nothing fails *)

Lemma rename_labels_ok w prefix repo h :
  (∀ h' p j, http_patch w h' p j = Ok tt) →
  (rename_labels w prefix repo h).2 = Ok tt.
Proof.
  intros Hpatch. unfold rename_labels. rewrite bind_snd. cbn [log_info snd].
  apply for_each_ok. intros [label rt] h' _.
  rewrite bind_snd. cbn [log_info fst snd client_patch]. apply Hpatch.
Qed.

Lemma process_dir_ok w prefix title body d h :
  (∀ h' d' e, local_repo w h' d' ≠ Raise e) →
  (∀ h' p e, http_get w h' p ≠ Raise e) →
  (∀ h' p rd P e, http_get w h' p = Ok rd → parent rd = Some P →
                  GHRepo_parse w (full_name P) ≠ Raise e) →
  (∀ h' p j, http_patch w h' p j = Ok tt) →
  (∀ h' argv d', run w h' argv d' = Ok 0) →
  (∀ h' f e, file_read w h' f ≠ Raise e) →
  (∀ h' f text, file_read w h' f = Ok text →
                ∃ members, json_loads w text = Ok (JObj members)) →
  (∀ h' f c, file_write w h' f c = Ok tt) →
  (∀ h' p j e, http_post w h' p j ≠ Raise e) →
  (process_dir w prefix title body d h).2 = Ok tt.
Proof.
  intros Hlocal Hget Hparse Hpatch Hrun Hread Hloads Hwrite Hpost.
  destruct (process_dir w prefix title body d h) as [t r] eqn:Hdir.
  unfold process_dir, update_autorc, create_pr in Hdir. cbv zeta in Hdir.
  inv_run.
  all: repeat match goal with
       | H : rename_labels _ ?p ?repo ?h' = (_, Raise _) |- _ =>
           let Hok := fresh "Hok" in
           pose proof (rename_labels_ok w p repo h' Hpatch) as Hok;
           rewrite H in Hok; discriminate Hok
       | H : resolve_target _ ?rd _ _ = (_, Raise _),
         Hg : http_get _ _ _ = Ok ?rd |- _ =>
           apply resolve_target_inv in H as (H & _);
           destruct (parent rd) as [P|] eqn:EP; [|discriminate H];
           destruct (GHRepo_parse w (full_name P)) eqn:E; [discriminate H|];
           destruct (Hparse _ _ _ _ _ Hg EP E)
       | H : local_repo _ _ _ = Raise _ |- _ => by apply Hlocal in H
       | H : http_get _ _ _ = Raise _ |- _ => by apply Hget in H
       | H : file_read _ _ _ = Raise _ |- _ => by apply Hread in H
       | H : http_post _ _ _ _ = Raise _ |- _ => by apply Hpost in H
       | H : file_write _ _ _ _ = Raise _ |- _ => by rewrite Hwrite in H
       | H : failed (ERun _ _ _) = Some _ |- _ =>
           by rewrite Hrun in H
       | H : Raise _ = json_loads _ ?text,
         Hr : file_read _ _ _ = Ok ?text |- _ =>
           destruct (Hloads _ _ _ Hr) as [? Hm]; by rewrite Hm in H
       | H : Ok ?c = json_loads _ ?text, Hs : Raise _ = setitem ?c _ _,
         Hr : file_read _ _ _ = Ok ?text |- _ =>
           destruct (Hloads _ _ _ Hr) as [? Hm]; rewrite Hm in H;
           injection H as ->; discriminate Hs
       end.
  cbn [snd]. by repeat match goal with x : unit |- _ => destruct x end.
Qed.

(** X15. When the token is had and nothing that [main] calls fails (the
    clones resolve, the requests are answered, [GHRepo.parse] accepts the
    full name of every parent the metadata names, every [git] call exits
    with status 0, the files can be read and written, and every text read
    is a JSON object for [json.loads]), the run ends normally: the script
    has no failure of its own, with or without a fork, for any prefix and
    any list of directories. *)
Theorem X15_nothing_fails w prefix dirpath h token :
  ghtoken w h = Ok token →
  (∀ h' d' e, local_repo w h' d' ≠ Raise e) →
  (∀ h' p e, http_get w h' p ≠ Raise e) →
  (∀ h' p rd P e, http_get w h' p = Ok rd → parent rd = Some P →
                  GHRepo_parse w (full_name P) ≠ Raise e) →
  (∀ h' p j, http_patch w h' p j = Ok tt) →
  (∀ h' argv d', run w h' argv d' = Ok 0) →
  (∀ h' f e, file_read w h' f ≠ Raise e) →
  (∀ h' f text, file_read w h' f = Ok text →
                ∃ members, json_loads w text = Ok (JObj members)) →
  (∀ h' f c, file_write w h' f c = Ok tt) →
  (∀ h' p j e, http_post w h' p j ≠ Raise e) →
  (main w prefix dirpath h).2 = Ok tt.
Proof.
  intros Htoken Hlocal Hget Hparse Hpatch Hrun Hread Hloads Hwrite Hpost.
  rewrite main_over_dirs, Htoken. cbv zeta. cbn [snd].
  apply for_each_ok. intros d h' _. by apply process_dir_ok.
Qed.

(** X15 on the fork, over two directories, with libraries that reject
    every other text and name. *)
Lemma X15_nothing_fails_witness :
  ghtoken strict_world [] = Ok "token" ∧
  (∀ h' d' e, local_repo strict_world h' d' ≠ Raise e) ∧
  (∀ h' p e, http_get strict_world h' p ≠ Raise e) ∧
  (∀ h' p rd P e, http_get strict_world h' p = Ok rd → parent rd = Some P →
                  GHRepo_parse strict_world (full_name P) ≠ Raise e) ∧
  (∀ h' p j, http_patch strict_world h' p j = Ok tt) ∧
  (∀ h' argv d', run strict_world h' argv d' = Ok 0) ∧
  (∀ h' f e, file_read strict_world h' f ≠ Raise e) ∧
  (∀ h' f text, file_read strict_world h' f = Ok text →
                ∃ members, json_loads strict_world text = Ok (JObj members)) ∧
  (∀ h' f c, file_write strict_world h' f c = Ok tt) ∧
  (∀ h' p j e, http_post strict_world h' p j ≠ Raise e) ∧
  json_loads strict_world "{" = Raise (OtherError "JSONDecodeError") ∧
  (main strict_world "x-" ["clone"; "other"] []).2 = Ok tt.
Proof.
  assert (Hparse : ∀ (h' : list Event) p rd P e,
            http_get strict_world h' p = Ok rd → parent rd = Some P →
            GHRepo_parse strict_world (full_name P) ≠ Raise e).
  { intros h' p rd P e [= <-] [= <-]. done. }
  assert (Hloads : ∀ (h' : list Event) f text,
            file_read strict_world h' f = Ok text →
            ∃ members, json_loads strict_world text = Ok (JObj members)).
  { intros h' f text [= <-]. by eexists. }
  split; [reflexivity|]. split; [done|]. split; [done|].
  split; [exact Hparse|]. split; [done|]. split; [done|]. split; [done|].
  split; [exact Hloads|]. split; [done|]. split; [done|].
  split; [reflexivity|].
  by apply (X15_nothing_fails strict_world "x-" ["clone"; "other"] []
              "token").
Defined.

End RewriterSpec.
